(** * FlashSettings: a checksummed settings record in EEPROM

    A shallow embedding of [src/FlashSettings.h] (class template
    [FlashSettings<T, FlashPartitionSize>]) and the properties of its three
    member functions [begin], [update] and [fletcher16].

    Conventions.
    - [uint8_t] is [byte]; its value is [byte.unsigned b], and a value is
      narrowed to a byte with [byte.of_Z] (reduction modulo 256).
    - [uint16_t] is a [Z] in [0, 65536); every assignment to a [uint16_t]
      object goes through [u16], the wrap-around modulo 65536.
    - [int], [unsigned int] and [size_t] values are [Z] or [nat]: on the
      supported targets (ESP8266, ESP32) they are 32 bits wide and no
      computation of the class reaches their range.
    - The supported targets are little-endian: a [uint16_t] seen through a
      [uint8_t*] has its low byte first. *)

From Stdlib Require Import ZArith Lia List.
From coqutil Require Import Byte.
From stdpp Require Import base list.
Import ListNotations.
Local Open Scope Z_scope.

(** ** Machine integers *)

(** Conversion to [uint16_t]. *)
Definition u16 (z : Z) : Z := z mod 65536.

(** [data[index]] on a byte buffer.  The class only indexes inside its
    buffers; outside (undefined in C++) the model reads [0]. *)
Definition byte_at (data : list byte) (index : nat) : byte :=
  default Byte.x00 (data !! index).

(** ** The checksum: [FlashSettings::fletcher16] *)

(** One turn of the [for] loop: the two assignments to [sum1] and [sum2]. *)
Definition fletcher16_step (data : list byte) (index : nat) (sums : Z * Z)
  : Z * Z :=
  let sum1 := u16 ((fst sums + byte.unsigned (byte_at data index)) mod 255) in
  let sum2 := u16 ((snd sums + sum1) mod 255) in
  (sum1, sum2).

(** The loop [for (index = ...; index < count; ++index)], with [todo] turns
    left to run. *)
Fixpoint fletcher16_loop (data : list byte) (index todo : nat) (sums : Z * Z)
  : Z * Z :=
  match todo with
  | O => sums
  | S todo' =>
      fletcher16_loop data (S index) todo' (fletcher16_step data index sums)
  end.

Definition fletcher16 (data : list byte) (count : Z) : Z :=
  let '(sum1, sum2) := fletcher16_loop data 0 (Z.to_nat count) (0, 0) in
  u16 (Z.lor (Z.shiftl sum2 8) sum1).

(** Both running sums stay below 255. *)
Definition sums_reduced (sums : Z * Z) : Prop :=
  0 <= fst sums < 255 /\ 0 <= snd sums < 255.

(** The plain sum of the values of the bytes. *)
Definition byte_sum (bytes : list byte) : Z :=
  fold_right (fun b acc => byte.unsigned b + acc) 0 bytes.

(** The reference definition of Fletcher-16, as section 4.3 of the
    specification words it: two running sums reduced modulo 255, the second
    one in the high byte of the result. *)
Definition fletcher16_ref_step (sums : Z * Z) (b : byte) : Z * Z :=
  let sum1 := (fst sums + byte.unsigned b) mod 255 in
  let sum2 := (snd sums + sum1) mod 255 in
  (sum1, sum2).

Definition fletcher16_ref_sums (bytes : list byte) : Z * Z :=
  fold_left fletcher16_ref_step bytes (0, 0).

Definition fletcher16_ref (bytes : list byte) : Z :=
  let '(sum1, sum2) := fletcher16_ref_sums bytes in
  Z.lor (Z.shiftl sum2 8) sum1.

(** ** The storage driver: the global [EEPROM] object

    The driver is the Arduino core's ([#include <EEPROM.h>]), not a part of
    this repository.  Section 6 of the specification gives the interface the
    class needs from it: a byte array with byte-indexed [read] and [write],
    an idempotent [begin] that opens the region and a [commit] that flushes
    it. *)

(** The calls the class makes on the driver. *)
Inductive EEPROM_call : Type :=
| call_begin (size : nat)
| call_read (address : nat)
| call_write (address : nat) (value : byte)
| call_commit.

(** Modelled from the spec: the state of the storage driver [EEPROM], whose
    code is outside the repository.  [cells] is the byte array, what [read]
    returns; [calls] is the journal of the calls made so far, oldest first,
    kept so that the storage traffic of an operation can be stated. *)
Record EEPROMClass : Type := mkEEPROM {
  cells : list byte;
  calls : list EEPROM_call
}.

Definition EEPROM_log (c : EEPROM_call) (E : EEPROMClass) : EEPROMClass :=
  {| cells := cells E; calls := calls E ++ [c] |}.

(** Modelled from the spec: [EEPROM.begin(size)], "reserve/initialize a
    contiguous region; idempotent".  The bytes are kept. *)
Definition EEPROM_begin (size : nat) (E : EEPROMClass) : EEPROMClass :=
  EEPROM_log (call_begin size) E.

(** Modelled from the spec: [EEPROM.read(address)], the byte at that
    offset.  Outside the region the ESP cores give [0]; the class never
    reads there. *)
Definition EEPROM_read (address : nat) (E : EEPROMClass)
  : byte * EEPROMClass :=
  (byte_at (cells E) address, EEPROM_log (call_read address) E).

(** Modelled from the spec: [EEPROM.write(address, value)], a write of one
    byte at that offset.  Outside the region the ESP cores drop it; the
    class never writes there. *)
Definition EEPROM_write (address : nat) (value : byte) (E : EEPROMClass)
  : EEPROMClass :=
  EEPROM_log (call_write address value)
    {| cells := <[address := value]> (cells E); calls := calls E |}.

(** Modelled from the spec: [EEPROM.commit()], the flush of the buffered
    writes; the bytes that [read] returns are unchanged by it. *)
Definition EEPROM_commit (E : EEPROMClass) : EEPROMClass :=
  EEPROM_log call_commit E.

(** A call that changes the storage or makes a change durable. *)
Definition is_write_or_commit (c : EEPROM_call) : bool :=
  match c with
  | call_write _ _ | call_commit => true
  | call_begin _ | call_read _ => false
  end.

(** ** The settings object

    An object of class [FlashSettings<T, FlashPartitionSize>]: the two
    members of the base class [FlashDataBase] followed by the rest of [T],
    which the class never looks into and which is kept as raw bytes (padding
    included). *)

Record FlashSettings : Type := mkFlashSettings {
  m_size : Z;
  m_checksum : Z;
  payload : list byte
}.

Definition set_m_checksum (v : Z) (this : FlashSettings) : FlashSettings :=
  {| m_size := m_size this; m_checksum := u16 v; payload := payload this |}.

(** The two bytes of a [uint16_t] in memory, low byte first. *)
Definition u16_bytes (v : Z) : list byte :=
  [byte.of_Z v; byte.of_Z (v / 256)].

(** [(uint8_t* )static_cast<FlashDataBase*>(this)]: the object seen as
    bytes. *)
Definition object_bytes (this : FlashSettings) : list byte :=
  u16_bytes (m_size this) ++ u16_bytes (m_checksum this) ++ payload this.

(** [pwTemp[k]] where [pwTemp = (uint16_t* )data]: read and assignment. *)
Definition pw_get (data : list byte) (k : nat) : Z :=
  byte.unsigned (byte_at data (2 * k))
  + 256 * byte.unsigned (byte_at data (2 * k + 1)).

Definition pw_set (data : list byte) (k : nat) (v : Z) : list byte :=
  <[(2 * k + 1)%nat := byte.of_Z (u16 v / 256)]>
    (<[(2 * k)%nat := byte.of_Z (u16 v)]> data).

Section FlashSettings.

(** The template parameters: [sizeof(T)] and [FlashPartitionSize]. *)
Variable sizeof_T : nat.
Variable FlashPartitionSize : nat.

(** The constructor, run after [T]'s own, which leaves [defaults] in the
    rest of the object. *)
Definition FlashSettings_new (defaults : list byte) : FlashSettings :=
  {| m_size := u16 (Z.of_nat sizeof_T);
     m_checksum := u16 0xAAAA;
     payload := defaults |}.

(** The object holds [sizeof(T)] bytes: four of header, the rest of
    payload. *)
Definition well_sized (this : FlashSettings) : Prop :=
  (4 + length (payload this))%nat = sizeof_T.

(** [memcpy(static_cast<FlashDataBase*>(this), data, sizeof(T))]. *)
Definition memcpy_object (data : list byte) : FlashSettings :=
  {| m_size := pw_get data 0;
     m_checksum := pw_get data 1;
     payload := take (sizeof_T - 4) (drop 4 data) |}.

(** [for (i = ...; i < sizeof(T); i++) data[i] = EEPROM.read(i);] *)
Fixpoint begin_read_loop (i todo : nat) (data : list byte)
    (E : EEPROMClass) : list byte * EEPROMClass :=
  match todo with
  | O => (data, E)
  | S todo' =>
      let '(v, E') := EEPROM_read i E in
      begin_read_loop (S i) todo' (<[i := v]> data) E'
  end.

(** [begin]. The local array [data] is not initialised (zeros here); the
    reading loop assigns every element of it. *)
Definition begin (this : FlashSettings) (E : EEPROMClass)
  : bool * FlashSettings * EEPROMClass :=
  let E := EEPROM_begin FlashPartitionSize E in
  let data := replicate sizeof_T Byte.x00 in
  let '(data, E) := begin_read_loop 0 sizeof_T data E in
  if negb (pw_get data 0 =? Z.of_nat sizeof_T) then (false, this, E)
  else
    let sum := pw_get data 1 in
    let data := pw_set data 1 0 in
    let data := pw_set data 1 (fletcher16 data (Z.of_nat sizeof_T)) in
    if negb (pw_get data 1 =? sum) then (false, this, E)
    else (true, memcpy_object data, E).

(** [for (i = ...; i < sizeof(T); i++) EEPROM.write(i, pData[i]);] *)
Fixpoint update_write_loop (pData : list byte) (i todo : nat)
    (E : EEPROMClass) : EEPROMClass :=
  match todo with
  | O => E
  | S todo' =>
      update_write_loop pData (S i) todo'
        (EEPROM_write i (byte_at pData i) E)
  end.

(** [update] returns [void]: the result carries the object and the
    driver only. *)
Definition update (this : FlashSettings) (E : EEPROMClass)
  : unit * FlashSettings * EEPROMClass :=
  let old_sum := m_checksum this in
  let this := set_m_checksum 0 this in
  let this :=
    set_m_checksum
      (fletcher16 (object_bytes this) (Z.of_nat sizeof_T)) this in
  if old_sum =? m_checksum this then (tt, this, E)
  else
    let pData := object_bytes this in
    let E := update_write_loop pData 0 sizeof_T E in
    (tt, this, EEPROM_commit E).

(** *** Vocabulary of the statements *)

(** The checksum [update] computes: over the whole object, its checksum
    member held at zero. *)
Definition computed_checksum (this : FlashSettings) : Z :=
  fletcher16 (object_bytes (set_m_checksum 0 this)) (Z.of_nat sizeof_T).

(** The calls of the write path of [update]: every byte of the object, in
    order from offset 0, then the commit. *)
Definition write_calls (pData : list byte) : list EEPROM_call :=
  map (fun i => call_write i (byte_at pData i)) (seq 0 sizeof_T)
  ++ [call_commit].

(** The first [sizeof(T)] bytes of the storage, as [read] gives them. *)
Definition stored_bytes (E : EEPROMClass) : list byte :=
  map (byte_at (cells E)) (seq 0 sizeof_T).

Definition stored_size (E : EEPROMClass) : Z :=
  pw_get (stored_bytes E) 0.

Definition stored_checksum (E : EEPROMClass) : Z :=
  pw_get (stored_bytes E) 1.

(** The checksum of the stored bytes, their checksum field zeroed. *)
Definition recomputed_checksum (E : EEPROMClass) : Z :=
  fletcher16 (pw_set (stored_bytes E) 1 0) (Z.of_nat sizeof_T).

(** The caller writes to its own members between two calls: the payload
    as a whole, or one byte of it. *)
Definition set_payload (p : list byte) (this : FlashSettings)
  : FlashSettings :=
  {| m_size := m_size this; m_checksum := m_checksum this; payload := p |}.

Definition set_payload_byte (i : nat) (b : byte) (this : FlashSettings)
  : FlashSettings :=
  set_payload (<[i := b]> (payload this)) this.

(** The calls [begin] makes, and the driver after them. *)
Definition begin_calls : list EEPROM_call :=
  call_begin FlashPartitionSize :: map call_read (seq 0 sizeof_T).

Definition after_begin (E : EEPROMClass) : EEPROMClass :=
  {| cells := cells E; calls := calls E ++ begin_calls |}.

(** A life of the store after its construction: any sequence of [begin],
    [update] and writes of the caller to the payload. *)
Inductive operation : Type :=
| op_begin
| op_update
| op_set_payload (p : list byte).

Definition run_operation (s : FlashSettings * EEPROMClass)
    (o : operation) : FlashSettings * EEPROMClass :=
  match o with
  | op_begin => let '(_, this, E) := begin (fst s) (snd s) in (this, E)
  | op_update => let '(_, this, E) := update (fst s) (snd s) in (this, E)
  | op_set_payload p => (set_payload p (fst s), snd s)
  end.

Definition run (ops : list operation) (s : FlashSettings * EEPROMClass)
  : FlashSettings * EEPROMClass :=
  fold_left run_operation ops s.

(** *** The storage seen from outside the class *)

(** One byte of the storage changes without the class writing it (bit rot,
    a torn write): the cell at offset [i] now holds [b]. *)
Definition corrupt_byte (i : nat) (b : byte) (E : EEPROMClass)
  : EEPROMClass :=
  {| cells := <[i := b]> (cells E); calls := calls E |}.

(** The byte [b] with its bit [k] inverted. *)
Definition flip_bit (k : nat) (b : byte) : byte :=
  byte.of_Z (Z.lxor (byte.unsigned b) (2 ^ Z.of_nat k)).

(** A call whose address, if it has one, lies below [limit]. *)
Definition call_within (limit : nat) (c : EEPROM_call) : bool :=
  match c with
  | call_read address | call_write address _ => (address <? limit)%nat
  | call_begin _ | call_commit => true
  end.

(** The storage holds a record that [begin] accepts: the region is there,
    the size field is [sizeof(T)] and the checksum field is the checksum of
    the record. *)
Definition holds_valid_record (E : EEPROMClass) : Prop :=
  (sizeof_T <= length (cells E))%nat
  /\ stored_size E = Z.of_nat sizeof_T
  /\ recomputed_checksum E = stored_checksum E.

(** * Properties *)

(** ** Machine integers and bytes *)

Lemma byte_unsigned_bounds (b : byte) : 0 <= byte.unsigned b < 256.
Proof. exact (byte.unsigned_range b). Qed.

Lemma byte_unsigned_of_Z (z : Z) : byte.unsigned (byte.of_Z z) = z mod 256.
Proof. exact (byte.unsigned_of_Z z). Qed.

Lemma u16_small (z : Z) : 0 <= z < 65536 -> u16 z = z.
Proof. intros Hz. unfold u16. apply Z.mod_small, Hz. Qed.

Lemma u16_bounds (z : Z) : 0 <= u16 z < 65536.
Proof. unfold u16. apply Z.mod_pos_bound. lia. Qed.

Lemma u16_mod_255 (z : Z) : u16 (z mod 255) = z mod 255.
Proof.
  apply u16_small.
  pose proof (Z.mod_pos_bound z 255 ltac:(lia)). lia.
Qed.

(** [hi << 8 | lo] is [hi * 256 + lo] when [lo] is a byte. *)
Lemma lor_shiftl_8 (hi lo : Z) :
  0 <= lo < 256 -> Z.lor (Z.shiftl hi 8) lo = hi * 256 + lo.
Proof.
  intros Hlo.
  rewrite <- Z.add_nocarry_lor.
  - rewrite Z.shiftl_mul_pow2 by lia. reflexivity.
  - apply Z.bits_inj'. intros n Hn.
    rewrite Z.land_spec, Z.bits_0.
    destruct (Z.lt_ge_cases n 8) as [Hlt | Hge].
    + rewrite Z.shiftl_spec_low by assumption. reflexivity.
    + destruct (Z.eq_dec lo 0) as [-> | Hnz].
      * rewrite Z.bits_0. apply andb_false_r.
      * rewrite (Z.bits_above_log2 lo n).
        -- apply andb_false_r.
        -- lia.
        -- apply Z.log2_lt_pow2; [lia |].
           apply Z.lt_le_trans with (2 ^ 8); [simpl; lia |].
           apply Z.pow_le_mono_r; lia.
Qed.

(** ** The checksum *)

Lemma fletcher16_step_ref (data : list byte) (index : nat) (sums : Z * Z) :
  fletcher16_step data index sums
  = fletcher16_ref_step sums (byte_at data index).
Proof.
  unfold fletcher16_step, fletcher16_ref_step.
  rewrite !u16_mod_255. reflexivity.
Qed.

Lemma fletcher16_ref_step_reduced (sums : Z * Z) (b : byte) :
  sums_reduced (fletcher16_ref_step sums b).
Proof.
  unfold sums_reduced, fletcher16_ref_step; simpl.
  split; apply Z.mod_pos_bound; lia.
Qed.

Lemma fletcher16_loop_reduced (data : list byte) (todo index : nat)
    (sums : Z * Z) :
  sums_reduced sums -> sums_reduced (fletcher16_loop data index todo sums).
Proof.
  revert index sums.
  induction todo as [| todo IH]; intros index sums Hs; simpl.
  - exact Hs.
  - apply IH. rewrite fletcher16_step_ref.
    apply fletcher16_ref_step_reduced.
Qed.

(** The indexed loop over a window of the buffer is the fold over that
    window. *)
Lemma fletcher16_loop_fold (data : list byte) (todo index : nat)
    (sums : Z * Z) :
  (index + todo <= length data)%nat ->
  fletcher16_loop data index todo sums
  = fold_left fletcher16_ref_step (take todo (drop index data)) sums.
Proof.
  revert index sums.
  induction todo as [| todo IH]; intros index sums Hlen; simpl.
  - reflexivity.
  - destruct (lookup_lt_is_Some_2 data index ltac:(lia)) as [b Hb].
    rewrite (drop_S data b index Hb). simpl.
    rewrite IH by lia.
    rewrite fletcher16_step_ref.
    unfold byte_at. rewrite Hb. reflexivity.
Qed.

Lemma fletcher16_whole (bytes : list byte) :
  fletcher16_loop bytes 0 (length bytes) (0, 0) = fletcher16_ref_sums bytes.
Proof.
  rewrite fletcher16_loop_fold by lia.
  rewrite drop_0, firstn_all. reflexivity.
Qed.

Lemma sums_reduced_zero : sums_reduced (0, 0).
Proof. unfold sums_reduced; simpl; lia. Qed.

(** The value [fletcher16] returns, without the bit operations. *)
Lemma fletcher16_value (data : list byte) (count : Z) :
  fletcher16 data count
  = snd (fletcher16_loop data 0 (Z.to_nat count) (0, 0)) * 256
    + fst (fletcher16_loop data 0 (Z.to_nat count) (0, 0)).
Proof.
  unfold fletcher16.
  pose proof (fletcher16_loop_reduced data (Z.to_nat count) 0 (0, 0)
                sums_reduced_zero) as Hr.
  destruct (fletcher16_loop data 0 (Z.to_nat count) (0, 0)) as [sum1 sum2].
  destruct Hr as [H1 H2]; simpl in *.
  rewrite lor_shiftl_8 by lia.
  apply u16_small. lia.
Qed.

Lemma fletcher16_bounds (data : list byte) (count : Z) :
  0 <= fletcher16 data count < 65536.
Proof.
  rewrite fletcher16_value.
  pose proof (fletcher16_loop_reduced data (Z.to_nat count) 0 (0, 0)
                sums_reduced_zero) as [H1 H2].
  lia.
Qed.

(** C4. [fletcher16] is the Fletcher-16 of the reference definition: both
    sums start at 0, each byte in order updates [sum1 = (sum1 + b) mod 255]
    and [sum2 = (sum2 + sum1) mod 255], and the result is
    [(sum2 << 8) | sum1]; over the bytes [0x01, 0x02] it is [0x0403] and over
    no bytes at all it is [0x0000]. *)
Theorem fletcher16_is_reference :
  (forall bytes : list byte,
     fletcher16 bytes (Z.of_nat (length bytes)) = fletcher16_ref bytes)
  /\ fletcher16 [Byte.x01; Byte.x02] 2 = 0x0403
  /\ fletcher16 [] 0 = 0x0000.
Proof.
  split; [| split; reflexivity].
  intros bytes.
  rewrite fletcher16_value, Nat2Z.id, fletcher16_whole.
  unfold fletcher16_ref.
  assert (Hr : sums_reduced (fletcher16_ref_sums bytes)).
  { rewrite <- fletcher16_whole.
    apply fletcher16_loop_reduced, sums_reduced_zero. }
  destruct (fletcher16_ref_sums bytes) as [sum1 sum2].
  destruct Hr as [H1 H2]; simpl in *.
  rewrite lor_shiftl_8 by lia. reflexivity.
Qed.

Lemma fletcher16_neq_65535 (data : list byte) (count : Z) :
  fletcher16 data count <> 65535.
Proof.
  rewrite fletcher16_value.
  pose proof (fletcher16_loop_reduced data (Z.to_nat count) 0 (0, 0)
                sums_reduced_zero) as [H1 H2].
  lia.
Qed.

(** C10. Whatever the input, the high byte and the low byte of the result
    of [fletcher16] are at most 254, so the result is never [0xFFFF]: a
    checksum field read back as [0xFF 0xFF], as from erased storage, equals
    no computed checksum. *)
Theorem fletcher16_never_all_ones :
  forall (data : list byte) (count : Z),
    0 <= fletcher16 data count / 256 <= 254
    /\ 0 <= fletcher16 data count mod 256 <= 254
    /\ fletcher16 data count <> 0xFFFF
    /\ forall b0 b1 rest,
         pw_get (b0 :: b1 :: Byte.xff :: Byte.xff :: rest) 1
         <> fletcher16 data count.
Proof.
  intros data count.
  rewrite fletcher16_value.
  pose proof (fletcher16_loop_reduced data (Z.to_nat count) 0 (0, 0)
                sums_reduced_zero) as [H1 H2].
  set (sum1 := fst _) in *. set (sum2 := snd _) in *.
  assert (Hdiv : (sum2 * 256 + sum1) / 256 = sum2).
  { rewrite Z.div_add_l by lia. rewrite Z.div_small by lia. lia. }
  assert (Hmod : (sum2 * 256 + sum1) mod 256 = sum1).
  { rewrite Z.add_comm, Z.mod_add by lia. apply Z.mod_small. lia. }
  rewrite Hdiv, Hmod.
  repeat split; try lia.
  intros b0 b1 rest. unfold pw_get, byte_at. simpl.
  change (byte.unsigned Byte.xff) with 255. lia.
Qed.

(** ** Two-byte accesses through [pwTemp] *)

Lemma u16_split (z : Z) : z mod 256 + 256 * ((z / 256) mod 256) = u16 z.
Proof.
  unfold u16. change 65536 with (256 * 256).
  rewrite Z.rem_mul_r by lia. reflexivity.
Qed.

Lemma pw_get_bounds (data : list byte) (k : nat) :
  0 <= pw_get data k < 65536.
Proof.
  unfold pw_get.
  pose proof (byte_unsigned_bounds (byte_at data (2 * k))).
  pose proof (byte_unsigned_bounds (byte_at data (2 * k + 1))).
  lia.
Qed.

Lemma length_pw_set (data : list byte) (k : nat) (v : Z) :
  length (pw_set data k v) = length data.
Proof. unfold pw_set. rewrite !length_insert. reflexivity. Qed.

Lemma byte_at_insert_eq (data : list byte) (i : nat) (b : byte) :
  (i < length data)%nat -> byte_at (<[i := b]> data) i = b.
Proof.
  intros Hi. unfold byte_at.
  rewrite list_lookup_insert_eq by assumption. reflexivity.
Qed.

Lemma byte_at_insert_ne (data : list byte) (i j : nat) (b : byte) :
  i <> j -> byte_at (<[i := b]> data) j = byte_at data j.
Proof.
  intros Hij. unfold byte_at.
  rewrite list_lookup_insert_ne by assumption. reflexivity.
Qed.

Lemma pw_get_pw_set (data : list byte) (k : nat) (v : Z) :
  (2 * k + 1 < length data)%nat -> pw_get (pw_set data k v) k = u16 v.
Proof.
  intros Hk. unfold pw_get, pw_set.
  rewrite byte_at_insert_ne by lia.
  rewrite byte_at_insert_eq by lia.
  rewrite byte_at_insert_eq by (rewrite length_insert; lia).
  rewrite !byte_unsigned_of_Z.
  rewrite u16_split. apply u16_small, u16_bounds.
Qed.

Lemma pw_set_pw_set (data : list byte) (k : nat) (v w : Z) :
  pw_set (pw_set data k v) k w = pw_set data k w.
Proof.
  unfold pw_set.
  rewrite (list_insert_insert_ne _ (2 * k) (2 * k + 1)) by lia.
  rewrite !list_insert_insert_eq.
  reflexivity.
Qed.

Lemma byte_at_lookup (data : list byte) (i : nat) :
  (i < length data)%nat -> data !! i = Some (byte_at data i).
Proof.
  intros Hi. unfold byte_at.
  destruct (lookup_lt_is_Some_2 data i Hi) as [b ->]. reflexivity.
Qed.

Lemma pw_set_pw_get (data : list byte) (k : nat) :
  (2 * k + 1 < length data)%nat -> pw_set data k (pw_get data k) = data.
Proof.
  intros Hk. unfold pw_set.
  rewrite (u16_small (pw_get data k)) by apply pw_get_bounds.
  pose proof (byte_unsigned_bounds (byte_at data (2 * k))) as H0.
  pose proof (byte_unsigned_bounds (byte_at data (2 * k + 1))) as H1.
  assert (Hlo : byte.of_Z (pw_get data k) = byte_at data (2 * k)).
  { apply byte.unsigned_inj. rewrite byte_unsigned_of_Z. unfold pw_get.
    rewrite (Z.mul_comm 256), Z.mod_add by lia.
    apply Z.mod_small. lia. }
  assert (Hhi : byte.of_Z (pw_get data k / 256) = byte_at data (2 * k + 1)).
  { apply byte.unsigned_inj. rewrite byte_unsigned_of_Z. unfold pw_get.
    rewrite (Z.mul_comm 256), Z.div_add by lia.
    rewrite (Z.div_small (byte.unsigned (byte_at data (2 * k)))) by lia.
    apply Z.mod_small. lia. }
  rewrite Hlo, Hhi.
  rewrite (list_insert_id data (2 * k)) by (apply byte_at_lookup; lia).
  apply list_insert_id, byte_at_lookup. lia.
Qed.

(** ** The object and its bytes *)

Lemma length_object_bytes (this : FlashSettings) :
  length (object_bytes this) = (4 + length (payload this))%nat.
Proof. reflexivity. Qed.

(** Assigning [m_checksum] is assigning [pwTemp[1]] on the bytes. *)
Lemma pw_set_object_bytes (this : FlashSettings) (v : Z) :
  pw_set (object_bytes this) 1 v = object_bytes (set_m_checksum v this).
Proof. reflexivity. Qed.

Lemma pw_get_object_bytes_0 (this : FlashSettings) :
  pw_get (object_bytes this) 0 = u16 (m_size this).
Proof.
  unfold pw_get, object_bytes, u16_bytes, byte_at; simpl.
  rewrite !byte_unsigned_of_Z. apply u16_split.
Qed.

Lemma pw_get_object_bytes_1 (this : FlashSettings) :
  pw_get (object_bytes this) 1 = u16 (m_checksum this).
Proof.
  unfold pw_get, object_bytes, u16_bytes, byte_at; simpl.
  rewrite !byte_unsigned_of_Z. apply u16_split.
Qed.

Lemma set_m_checksum_twice (v w : Z) (this : FlashSettings) :
  set_m_checksum v (set_m_checksum w this) = set_m_checksum v this.
Proof. reflexivity. Qed.

Lemma computed_checksum_bounds (this : FlashSettings) :
  0 <= computed_checksum this < 65536.
Proof. apply fletcher16_bounds. Qed.

(** The checksum is blind to the checksum member. *)
Lemma computed_checksum_set_m_checksum (v : Z) (this : FlashSettings) :
  computed_checksum (set_m_checksum v this) = computed_checksum this.
Proof. reflexivity. Qed.

(** ** The two loops *)

Lemma take_S_insert (l : list byte) (i : nat) (x : byte) :
  (i < length l)%nat -> take (S i) (<[i := x]> l) = take i l ++ [x].
Proof.
  intros Hi.
  rewrite (take_S_r _ _ x) by (apply list_lookup_insert_eq; exact Hi).
  rewrite take_insert_ge by lia. reflexivity.
Qed.

Lemma begin_read_loop_spec (todo i : nat) (data : list byte)
    (E : EEPROMClass) :
  (i + todo <= length data)%nat ->
  begin_read_loop i todo data E
  = (take i data ++ map (byte_at (cells E)) (seq i todo)
       ++ drop (i + todo) data,
     {| cells := cells E; calls := calls E ++ map call_read (seq i todo) |}).
Proof.
  revert i data E.
  induction todo as [| todo IH]; intros i data E Hlen; simpl.
  - rewrite Nat.add_0_r, take_drop, app_nil_r. destruct E; reflexivity.
  - rewrite IH by (rewrite length_insert; lia). simpl.
    rewrite take_S_insert by lia.
    rewrite drop_insert_lt by lia.
    rewrite <- !app_assoc. simpl.
    replace (i + S todo)%nat with (S (i + todo)) by lia.
    reflexivity.
Qed.

(** What [begin] holds in [data] after its reading loop. *)
Lemma begin_read_loop_all (E : EEPROMClass) :
  begin_read_loop 0 sizeof_T (replicate sizeof_T Byte.x00)
    (EEPROM_begin FlashPartitionSize E)
  = (stored_bytes E, after_begin E).
Proof.
  rewrite begin_read_loop_spec by (rewrite length_replicate; lia).
  simpl. rewrite drop_ge by (rewrite length_replicate; lia).
  rewrite app_nil_r. unfold after_begin, begin_calls.
  simpl. rewrite <- app_assoc. reflexivity.
Qed.

Lemma length_stored_bytes (E : EEPROMClass) :
  length (stored_bytes E) = sizeof_T.
Proof. unfold stored_bytes. rewrite length_map, length_seq. reflexivity. Qed.

Lemma update_write_loop_calls (pData : list byte) (todo i : nat)
    (E : EEPROMClass) :
  calls (update_write_loop pData i todo E)
  = calls E ++ map (fun j => call_write j (byte_at pData j)) (seq i todo).
Proof.
  revert i E.
  induction todo as [| todo IH]; intros i E; simpl.
  - rewrite app_nil_r. reflexivity.
  - rewrite IH. simpl. rewrite <- app_assoc. reflexivity.
Qed.

Lemma update_write_loop_cells (pData : list byte) (todo i : nat)
    (E : EEPROMClass) :
  (i + todo <= length (cells E))%nat ->
  (i + todo <= length pData)%nat ->
  cells (update_write_loop pData i todo E)
  = take i (cells E) ++ take todo (drop i pData)
      ++ drop (i + todo) (cells E).
Proof.
  revert i E.
  induction todo as [| todo IH]; intros i E HE Hp; simpl.
  - rewrite Nat.add_0_r. rewrite take_drop. reflexivity.
  - rewrite IH by (simpl; rewrite ?length_insert; lia). simpl.
    rewrite take_S_insert by lia.
    rewrite drop_insert_lt by lia.
    rewrite (drop_S pData (byte_at pData i) i) by (apply byte_at_lookup; lia).
    rewrite <- !app_assoc. simpl.
    replace (i + S todo)%nat with (S (i + todo)) by lia.
    reflexivity.
Qed.

Lemma map_byte_at_seq (l : list byte) (n : nat) :
  (n <= length l)%nat -> map (byte_at l) (seq 0 n) = take n l.
Proof.
  revert n. induction l as [| b l IH]; intros n Hn; simpl in *.
  - replace n with 0%nat by lia. reflexivity.
  - destruct n as [| n]; simpl; [reflexivity |].
    f_equal. rewrite <- seq_shift, map_map.
    apply IH. lia.
Qed.

(** ** [begin], case by case *)

(** The second [static_assert] of [begin]: [T] derives from
    [FlashDataBase], so it holds at least the four bytes of the header.
    (The first one, [sizeof(T) <= FlashPartitionSize], is a premise of the
    theorems that need the storage to hold the whole object.) *)
Hypothesis has_header : (4 <= sizeof_T)%nat.

Lemma begin_unfold (this : FlashSettings) (E : EEPROMClass) :
  begin this E
  = if negb (stored_size E =? Z.of_nat sizeof_T)
    then (false, this, after_begin E)
    else
      let data :=
        pw_set (pw_set (stored_bytes E) 1 0) 1 (recomputed_checksum E) in
      if negb (pw_get data 1 =? stored_checksum E)
      then (false, this, after_begin E)
      else (true, memcpy_object data, after_begin E).
Proof using Type.
  unfold begin. rewrite begin_read_loop_all. reflexivity.
Qed.

Lemma begin_size_mismatch (this : FlashSettings) (E : EEPROMClass) :
  stored_size E <> Z.of_nat sizeof_T ->
  begin this E = (false, this, after_begin E).
Proof using Type.
  intros Hsize. rewrite begin_unfold.
  destruct (Z.eqb_spec (stored_size E) (Z.of_nat sizeof_T)); [tauto |].
  reflexivity.
Qed.

Lemma pw_get_recomputed (E : EEPROMClass) :
  pw_get (pw_set (pw_set (stored_bytes E) 1 0) 1 (recomputed_checksum E)) 1
  = recomputed_checksum E.
Proof using has_header.
  rewrite pw_get_pw_set
    by (rewrite length_pw_set, length_stored_bytes; lia).
  apply u16_small, fletcher16_bounds.
Qed.

Lemma begin_checksum_mismatch (this : FlashSettings) (E : EEPROMClass) :
  stored_size E = Z.of_nat sizeof_T ->
  recomputed_checksum E <> stored_checksum E ->
  begin this E = (false, this, after_begin E).
Proof using has_header.
  intros Hsize Hsum. rewrite begin_unfold. cbv zeta.
  rewrite pw_get_recomputed.
  destruct (Z.eqb_spec (stored_size E) (Z.of_nat sizeof_T)); [| lia].
  destruct (Z.eqb_spec (recomputed_checksum E) (stored_checksum E)); [lia |].
  reflexivity.
Qed.

Lemma begin_ok (this : FlashSettings) (E : EEPROMClass) :
  stored_size E = Z.of_nat sizeof_T ->
  recomputed_checksum E = stored_checksum E ->
  begin this E = (true, memcpy_object (stored_bytes E), after_begin E).
Proof using has_header.
  intros Hsize Hsum. rewrite begin_unfold. cbv zeta.
  rewrite pw_get_recomputed.
  destruct (Z.eqb_spec (stored_size E) (Z.of_nat sizeof_T)); [| lia].
  destruct (Z.eqb_spec (recomputed_checksum E) (stored_checksum E)); [| lia].
  simpl. rewrite pw_set_pw_set, Hsum. unfold stored_checksum.
  rewrite pw_set_pw_get by (rewrite length_stored_bytes; lia).
  reflexivity.
Qed.

Lemma pw_get_0_pw_set_1 (data : list byte) (v : Z) :
  pw_get (pw_set data 1 v) 0 = pw_get data 0.
Proof.
  unfold pw_get, pw_set; simpl.
  rewrite !byte_at_insert_ne by discriminate. reflexivity.
Qed.

(** Whatever the storage holds, [begin] leaves the driver in
    [after_begin E]; it keeps the object when it fails and loads an object
    of the right size field when it succeeds. *)
Lemma begin_cases (this : FlashSettings) (E : EEPROMClass) :
  exists loaded this',
    begin this E = (loaded, this', after_begin E)
    /\ (loaded = false -> this' = this)
    /\ (loaded = true -> m_size this' = u16 (Z.of_nat sizeof_T)).
Proof using Type.
  clear has_header. rewrite begin_unfold. cbv zeta.
  destruct (Z.eqb_spec (stored_size E) (Z.of_nat sizeof_T)) as [Hsize |];
    simpl.
  2: { exists false, this. repeat split; congruence. }
  match goal with |- context [negb ?c] => destruct c end; simpl.
  - exists true. eexists. repeat split; [congruence |].
    intros _. simpl. rewrite !pw_get_0_pw_set_1.
    fold (stored_size E). rewrite <- Hsize.
    symmetry. apply u16_small, pw_get_bounds.
  - exists false, this. repeat split; congruence.
Qed.

Lemma existsb_map_call_read (l : list nat) :
  existsb is_write_or_commit (map call_read l) = false.
Proof. induction l as [| i l IH]; simpl; [reflexivity | exact IH]. Qed.

(** C9. [begin] never writes to the storage: after the call the storage
    holds the bytes it held before, the calls made on the driver are the
    opening and the reads, none of them a write or a commit, and the object
    is mutated on the success path only. *)
Theorem begin_never_writes :
  forall (this : FlashSettings) (E : EEPROMClass),
    let '(loaded, this', E') := begin this E in
    cells E' = cells E
    /\ calls E' = calls E ++ begin_calls
    /\ existsb is_write_or_commit begin_calls = false
    /\ (loaded = false -> this' = this).
Proof using Type.
  clear has_header. intros this E.
  destruct (begin_cases this E) as (loaded & this' & -> & Hkeep & _).
  repeat split; try assumption.
  unfold begin_calls. simpl. apply existsb_map_call_read.
Qed.

(** C3. Failure of [begin] is atomic: when the stored size field is not
    [sizeof(T)], or it is but the checksum recomputed over the bytes read,
    their checksum field zeroed, is not the stored checksum, [begin]
    returns [false] and the object, header and payload, is what it was
    before the call. *)
Theorem begin_failure_keeps_object :
  forall (this : FlashSettings) (E : EEPROMClass),
    stored_size E <> Z.of_nat sizeof_T
    \/ (stored_size E = Z.of_nat sizeof_T
        /\ recomputed_checksum E <> stored_checksum E) ->
    let '(loaded, this', _) := begin this E in
    loaded = false /\ this' = this.
Proof using has_header.
  intros this E [Hsize | [Hsize Hsum]].
  - rewrite begin_size_mismatch by assumption. split; reflexivity.
  - rewrite begin_checksum_mismatch by assumption. split; reflexivity.
Qed.

(** ** Storage that was never written *)

Lemma stored_bytes_replicate (E : EEPROMClass) (capacity : nat) (b : byte) :
  (sizeof_T <= capacity)%nat ->
  cells E = replicate capacity b ->
  stored_bytes E = replicate sizeof_T b.
Proof using Type.
  clear has_header. intros Hcap Hcells. unfold stored_bytes.
  rewrite Hcells, map_byte_at_seq by (rewrite length_replicate; exact Hcap).
  rewrite take_replicate, Nat.min_l by exact Hcap. reflexivity.
Qed.

Lemma pw_get_replicate (n k : nat) (b : byte) :
  (2 * k + 1 < n)%nat ->
  pw_get (replicate n b) k = byte.unsigned b + 256 * byte.unsigned b.
Proof using Type.
  clear has_header. intros Hk. unfold pw_get, byte_at.
  rewrite !lookup_replicate_2 by lia. reflexivity.
Qed.

(** C6. Against storage that was never written, every byte of it [0xFF]
    (erased) or every byte zero, [begin] returns [false] and leaves the
    object as its constructor made it; this for every [T] that passes the
    size check [sizeof(T) <= FlashPartitionSize]. *)
Theorem begin_on_fresh_storage :
  forall (defaults : list byte) (E : EEPROMClass) (capacity : nat),
    (sizeof_T <= FlashPartitionSize)%nat ->
    (FlashPartitionSize <= capacity)%nat ->
    cells E = replicate capacity Byte.xff
    \/ cells E = replicate capacity Byte.x00 ->
    let '(loaded, this', _) := begin (FlashSettings_new defaults) E in
    loaded = false /\ this' = FlashSettings_new defaults.
Proof using has_header.
  intros defaults E capacity Hfits Hcap Hfresh.
  assert (Hsize : (sizeof_T <= capacity)%nat) by lia.
  destruct Hfresh as [Hff | H00].
  - pose proof (stored_bytes_replicate E capacity _ Hsize Hff) as Hbytes.
    assert (Hstored : stored_checksum E = 65535).
    { unfold stored_checksum. rewrite Hbytes, pw_get_replicate by lia.
      reflexivity. }
    destruct (Z.eq_dec (stored_size E) (Z.of_nat sizeof_T)) as [Heq | Hne].
    + rewrite begin_checksum_mismatch; [split; reflexivity | exact Heq |].
      rewrite Hstored. unfold recomputed_checksum.
      apply (fletcher16_neq_65535 _ _).
    + rewrite begin_size_mismatch by exact Hne. split; reflexivity.
  - pose proof (stored_bytes_replicate E capacity _ Hsize H00) as Hbytes.
    rewrite begin_size_mismatch; [split; reflexivity |].
    unfold stored_size. rewrite Hbytes, pw_get_replicate by lia.
    change (byte.unsigned Byte.x00) with 0. lia.
Qed.

(** ** [update], case by case *)

Lemma m_checksum_after_update (this : FlashSettings) :
  m_checksum (set_m_checksum (computed_checksum this) this)
  = computed_checksum this.
Proof using Type. simpl. apply u16_small, computed_checksum_bounds. Qed.

Lemma update_unfold (this : FlashSettings) (E : EEPROMClass) :
  update this E
  = let this1 := set_m_checksum (computed_checksum this) this in
    if m_checksum this =? computed_checksum this then (tt, this1, E)
    else
      (tt, this1,
       EEPROM_commit (update_write_loop (object_bytes this1) 0 sizeof_T E)).
Proof using Type.
  unfold update. cbv zeta. rewrite set_m_checksum_twice.
  fold (computed_checksum this).
  rewrite m_checksum_after_update. reflexivity.
Qed.

Lemma update_unchanged (this : FlashSettings) (E : EEPROMClass) :
  m_checksum this = computed_checksum this ->
  update this E = (tt, set_m_checksum (computed_checksum this) this, E).
Proof using Type.
  intros Hsame. rewrite update_unfold. cbv zeta.
  rewrite Hsame, Z.eqb_refl. reflexivity.
Qed.

Lemma update_written (this : FlashSettings) (E : EEPROMClass) :
  m_checksum this <> computed_checksum this ->
  update this E
  = (tt, set_m_checksum (computed_checksum this) this,
     EEPROM_commit
       (update_write_loop
          (object_bytes (set_m_checksum (computed_checksum this) this))
          0 sizeof_T E)).
Proof using Type.
  intros Hdiff. rewrite update_unfold. cbv zeta.
  destruct (Z.eqb_spec (m_checksum this) (computed_checksum this));
    [tauto | reflexivity].
Qed.

Lemma calls_after_write (pData : list byte) (E : EEPROMClass) :
  calls (EEPROM_commit (update_write_loop pData 0 sizeof_T E))
  = calls E ++ write_calls pData.
Proof using Type.
  simpl. rewrite update_write_loop_calls. unfold write_calls.
  rewrite <- app_assoc. reflexivity.
Qed.

Lemma cells_after_write (pData : list byte) (E : EEPROMClass) :
  length pData = sizeof_T ->
  (sizeof_T <= length (cells E))%nat ->
  cells (EEPROM_commit (update_write_loop pData 0 sizeof_T E))
  = pData ++ drop sizeof_T (cells E).
Proof using Type.
  clear has_header. intros Hlen Hcap. simpl.
  rewrite update_write_loop_cells by lia. simpl.
  rewrite drop_0, <- Hlen, firstn_all. reflexivity.
Qed.

(** After an [update] the checksum member is up to date: the next call
    finds nothing to do. *)
Lemma update_again (this : FlashSettings) (E : EEPROMClass) :
  update (set_m_checksum (computed_checksum this) this) E
  = (tt, set_m_checksum (computed_checksum this) this, E).
Proof using Type.
  rewrite update_unchanged.
  - rewrite computed_checksum_set_m_checksum, set_m_checksum_twice.
    reflexivity.
  - rewrite computed_checksum_set_m_checksum.
    apply m_checksum_after_update.
Qed.

Lemma run_update (this : FlashSettings) (E : EEPROMClass) :
  exists E1,
    update this E = (tt, set_m_checksum (computed_checksum this) this, E1).
Proof using Type.
  rewrite update_unfold. cbv zeta.
  destruct (m_checksum this =? computed_checksum this); eauto.
Qed.

(** C8, as the code has it. [update] returns nothing ([void]): there is no
    signal to read.  What tells the two outcomes apart is the storage
    traffic: when the checksum member already equals the newly computed
    checksum the driver is not touched; otherwise every byte of the object
    is written from offset 0 and a commit is issued.  Either way the
    checksum member holds the newly computed checksum afterwards. *)
Theorem update_outcomes :
  forall (this : FlashSettings) (E : EEPROMClass),
    let '(result, this1, E1) := update this E in
    result = tt
    /\ this1 = set_m_checksum (computed_checksum this) this
    /\ (m_checksum this = computed_checksum this -> E1 = E)
    /\ (m_checksum this <> computed_checksum this ->
        calls E1 = calls E ++ write_calls (object_bytes this1)
        /\ (well_sized this ->
            (sizeof_T <= length (cells E))%nat ->
            cells E1 = object_bytes this1 ++ drop sizeof_T (cells E))).
Proof using Type.
  clear has_header. intros this E.
  destruct (Z.eq_dec (m_checksum this) (computed_checksum this))
    as [Hsame | Hdiff].
  - rewrite update_unchanged by exact Hsame.
    repeat split; tauto.
  - rewrite update_written by exact Hdiff.
    split; [reflexivity |]. split; [reflexivity |].
    split; [tauto |]. intros _. split.
    + apply calls_after_write.
    + intros Hsized Hcap. apply cells_after_write; [exact Hsized | exact Hcap].
Qed.

(** X14. A save repeated is a save done once: the call of [update] that
    follows another one, the object untouched in between, finds the checksum
    member up to date and leaves object and driver as they are, with no
    write and no commit; so does any number of further calls.  This for
    every object, freshly constructed or not. *)
Theorem update_idempotent :
  (forall (this : FlashSettings) (E : EEPROMClass),
     let '(_, this1, E1) := update this E in
     update this1 E1 = (tt, this1, E1))
  /\ (forall (this : FlashSettings) (E : EEPROMClass) (n : nat),
        run (op_update :: repeat op_update n) (this, E)
        = run [op_update] (this, E)).
Proof using Type.
  clear has_header. split.
  - intros this E.
    destruct (run_update this E) as [E1 ->]. apply update_again.
  - intros this E n. unfold run. simpl.
    destruct (run_update this E) as [E1 ->].
    induction n as [| n IH]; simpl; [reflexivity |].
    rewrite update_again. exact IH.
Qed.

(** ** What the checksum sees of a change *)

Lemma fletcher16_ref_fold_fst (bytes : list byte) (sums : Z * Z) :
  fst (fold_left fletcher16_ref_step bytes sums) mod 255
  = (fst sums + byte_sum bytes) mod 255.
Proof using Type.
  clear has_header. revert sums.
  induction bytes as [| b bytes IH]; intros sums; simpl.
  - rewrite Z.add_0_r. reflexivity.
  - rewrite IH. simpl.
    rewrite Zplus_mod_idemp_l, Z.add_assoc. reflexivity.
Qed.

(** The low byte of the checksum is the sum of the bytes modulo 255. *)
Lemma fletcher16_low_byte (bytes : list byte) :
  fletcher16 bytes (Z.of_nat (length bytes)) mod 256
  = byte_sum bytes mod 255.
Proof using Type.
  clear has_header.
  rewrite fletcher16_value, Nat2Z.id, fletcher16_whole.
  assert (Hr : sums_reduced (fletcher16_ref_sums bytes)).
  { rewrite <- fletcher16_whole.
    apply fletcher16_loop_reduced, sums_reduced_zero. }
  destruct Hr as [H1 H2].
  rewrite Z.add_comm, Z.mod_add by lia.
  rewrite Z.mod_small by lia.
  rewrite <- (Z.mod_small (fst (fletcher16_ref_sums bytes)) 255) by lia.
  unfold fletcher16_ref_sums. rewrite fletcher16_ref_fold_fst. reflexivity.
Qed.

Lemma byte_sum_insert (bytes : list byte) (i : nat) (b b' : byte) :
  bytes !! i = Some b ->
  byte_sum (<[i := b']> bytes)
  = byte_sum bytes - byte.unsigned b + byte.unsigned b'.
Proof using Type.
  clear has_header. revert i.
  induction bytes as [| x bytes IH]; intros i Hi; [discriminate |].
  destruct i as [| i]; simpl in *.
  - injection Hi as ->. lia.
  - rewrite (IH i Hi). lia.
Qed.

(** A change of one byte that is not a multiple of 255 changes the
    checksum. *)
Lemma fletcher16_insert_neq (bytes : list byte) (i : nat) (b b' : byte) :
  bytes !! i = Some b ->
  byte.unsigned b mod 255 <> byte.unsigned b' mod 255 ->
  fletcher16 (<[i := b']> bytes) (Z.of_nat (length bytes))
  <> fletcher16 bytes (Z.of_nat (length bytes)).
Proof using Type.
  clear has_header. intros Hi Hmod Heq.
  apply (f_equal (fun c => c mod 256)) in Heq.
  rewrite <- (length_insert bytes i b') in Heq at 1.
  rewrite !fletcher16_low_byte in Heq.
  rewrite (byte_sum_insert _ _ _ _ Hi) in Heq.
  apply Hmod.
  rewrite <- (Z.add_0_l (byte.unsigned b)), <- (Z.add_0_l (byte.unsigned b')).
  rewrite <- (Z.sub_diag (byte_sum bytes)).
  replace (byte_sum bytes - byte_sum bytes + byte.unsigned b)
    with (byte_sum bytes + (byte.unsigned b - byte_sum bytes)) by lia.
  replace (byte_sum bytes - byte_sum bytes + byte.unsigned b')
    with ((byte_sum bytes - byte.unsigned b + byte.unsigned b')
          + (byte.unsigned b - byte_sum bytes)) by lia.
  rewrite (Z.add_mod (byte_sum bytes)) by lia.
  rewrite (Z.add_mod (byte_sum bytes - byte.unsigned b + byte.unsigned b'))
    by lia.
  rewrite Heq. reflexivity.
Qed.

Lemma computed_checksum_set_payload_byte (this : FlashSettings) (i : nat)
    (b b' : byte) :
  well_sized this ->
  payload this !! i = Some b ->
  byte.unsigned b mod 255 <> byte.unsigned b' mod 255 ->
  computed_checksum (set_payload_byte i b' this) <> computed_checksum this.
Proof using Type.
  clear has_header. intros Hsized Hi Hmod. unfold computed_checksum.
  replace (Z.of_nat sizeof_T)
    with (Z.of_nat (length (object_bytes (set_m_checksum 0 this))))
    by (rewrite length_object_bytes; simpl; rewrite <- Hsized; reflexivity).
  change (object_bytes (set_m_checksum 0 (set_payload_byte i b' this)))
    with (<[(4 + i)%nat := b']> (object_bytes (set_m_checksum 0 this))).
  apply (fletcher16_insert_neq _ _ b); [| exact Hmod].
  exact Hi.
Qed.

(** C2, as the code has it. Between two consecutive calls of [update] one
    payload byte is changed from [b] to [b'].  When the two values differ
    modulo 255 (all changes but the one between [0x00] and [0xFF]) the second
    call writes every byte of the object and commits. *)
Theorem mutation_triggers_write :
  forall (this : FlashSettings) (E : EEPROMClass) (i : nat) (b b' : byte),
    well_sized this ->
    payload this !! i = Some b ->
    byte.unsigned b mod 255 <> byte.unsigned b' mod 255 ->
    let '(_, this1, E1) := update this E in
    let '(_, this2, E2) := update (set_payload_byte i b' this1) E1 in
    calls E2 = calls E1 ++ write_calls (object_bytes this2).
Proof using Type.
  clear has_header. intros this E i b b' Hsized Hi Hmod.
  destruct (run_update this E) as [E1 ->].
  set (this1 := set_m_checksum (computed_checksum this) this).
  rewrite update_written.
  - apply calls_after_write.
  - change (m_checksum (set_payload_byte i b' this1))
      with (m_checksum this1).
    unfold this1 at 1. rewrite m_checksum_after_update.
    rewrite <- (computed_checksum_set_m_checksum (computed_checksum this) this).
    fold this1. intros Heq. symmetry in Heq. revert Heq.
    apply (computed_checksum_set_payload_byte this1 i b b');
      [exact Hsized | exact Hi | exact Hmod].
Qed.

(** ** Saving, then loading *)

Lemma memcpy_object_bytes (this : FlashSettings) :
  well_sized this ->
  memcpy_object (object_bytes this)
  = {| m_size := u16 (m_size this);
       m_checksum := u16 (m_checksum this);
       payload := payload this |}.
Proof using Type.
  clear has_header. intros Hsized. unfold memcpy_object.
  rewrite pw_get_object_bytes_0, pw_get_object_bytes_1.
  f_equal. simpl.
  apply take_ge. unfold well_sized in Hsized. lia.
Qed.

Lemma stored_bytes_after_write (pData : list byte) (E : EEPROMClass) :
  length pData = sizeof_T ->
  (sizeof_T <= length (cells E))%nat ->
  stored_bytes (EEPROM_commit (update_write_loop pData 0 sizeof_T E))
  = pData.
Proof using Type.
  clear has_header. intros Hlen Hcap. unfold stored_bytes.
  rewrite cells_after_write by assumption.
  rewrite map_byte_at_seq by (rewrite length_app; lia).
  apply take_app_length'. symmetry. exact Hlen.
Qed.

(** C1, as the code has it. Take an object whose size member holds
    [sizeof(T)], which a 16-bit member can hold, and any storage at least as
    large as the partition.  If [update] finds the checksum member out of
    date, and so writes, then [begin] on a freshly constructed object
    against the resulting storage returns [true] and leaves in that object
    the payload that was saved (and the header that was saved with it). *)
Theorem save_then_load :
  forall (this : FlashSettings) (E : EEPROMClass) (defaults : list byte),
    well_sized this ->
    m_size this = Z.of_nat sizeof_T ->
    Z.of_nat sizeof_T < 65536 ->
    (sizeof_T <= FlashPartitionSize)%nat ->
    (FlashPartitionSize <= length (cells E))%nat ->
    m_checksum this <> computed_checksum this ->
    let '(_, this1, E1) := update this E in
    let '(loaded, fresh, _) := begin (FlashSettings_new defaults) E1 in
    loaded = true /\ payload fresh = payload this /\ fresh = this1.
Proof using has_header.
  intros this E defaults Hsized Hsize H16 Hfits Hcap Hdiff.
  rewrite update_written by exact Hdiff.
  set (this1 := set_m_checksum (computed_checksum this) this).
  set (E1 := EEPROM_commit _).
  assert (Hbytes : stored_bytes E1 = object_bytes this1).
  { apply stored_bytes_after_write; [exact Hsized | lia]. }
  assert (Hstored_size : stored_size E1 = Z.of_nat sizeof_T).
  { unfold stored_size. rewrite Hbytes, pw_get_object_bytes_0.
    change (m_size this1) with (m_size this).
    rewrite Hsize. apply u16_small. lia. }
  assert (Hstored_sum : stored_checksum E1 = computed_checksum this).
  { unfold stored_checksum. rewrite Hbytes, pw_get_object_bytes_1.
    unfold this1. rewrite m_checksum_after_update.
    apply u16_small, computed_checksum_bounds. }
  assert (Hrecomputed : recomputed_checksum E1 = computed_checksum this).
  { unfold recomputed_checksum. rewrite Hbytes, pw_set_object_bytes.
    reflexivity. }
  rewrite begin_ok by congruence.
  rewrite Hbytes, memcpy_object_bytes by exact Hsized.
  assert (Hloaded :
    {| m_size := u16 (m_size this1);
       m_checksum := u16 (m_checksum this1);
       payload := payload this1 |} = this1).
  { unfold this1 at 2. rewrite m_checksum_after_update.
    change (m_size this1) with (m_size this). rewrite Hsize.
    rewrite !u16_small by (try apply computed_checksum_bounds; lia).
    unfold this1, set_m_checksum. simpl.
    rewrite Hsize.
    rewrite u16_small by apply computed_checksum_bounds. reflexivity. }
  rewrite Hloaded. repeat split.
Qed.

(** ** The size member *)

Lemma run_operation_m_size (s : FlashSettings * EEPROMClass)
    (o : operation) :
  m_size (fst s) = u16 (Z.of_nat sizeof_T) ->
  m_size (fst (run_operation s o)) = u16 (Z.of_nat sizeof_T).
Proof using Type.
  clear has_header. intros Hs. destruct s as [this E], o as [| | p]; simpl.
  - destruct (begin_cases this E) as (loaded & this' & -> & Hkeep & Hload).
    simpl. destruct loaded.
    + apply Hload. reflexivity.
    + rewrite Hkeep by reflexivity. exact Hs.
  - destruct (run_update this E) as [E1 ->]. exact Hs.
  - exact Hs.
Qed.

Lemma run_m_size (ops : list operation) (s : FlashSettings * EEPROMClass) :
  m_size (fst s) = u16 (Z.of_nat sizeof_T) ->
  m_size (fst (run ops s)) = u16 (Z.of_nat sizeof_T).
Proof using Type.
  clear has_header. revert s.
  induction ops as [| o ops IH]; intros s Hs; simpl; [exact Hs |].
  apply IH, run_operation_m_size, Hs.
Qed.

(** C7, as the code has it. After the construction and any sequence of
    [begin], [update] and writes of the caller to the payload, against any
    storage, the size member holds [sizeof(T)] reduced to 16 bits; it holds
    [sizeof(T)] itself whenever [sizeof(T)] is at most 65535. *)
Theorem m_size_invariant :
  forall (defaults : list byte) (E : EEPROMClass) (ops : list operation),
    m_size (fst (run ops (FlashSettings_new defaults, E)))
    = Z.of_nat sizeof_T mod 65536
    /\ (Z.of_nat sizeof_T <= 65535 ->
        m_size (fst (run ops (FlashSettings_new defaults, E)))
        = Z.of_nat sizeof_T).
Proof using Type.
  clear has_header. intros defaults E ops.
  assert (H : m_size (fst (run ops (FlashSettings_new defaults, E)))
              = u16 (Z.of_nat sizeof_T))
    by (apply run_m_size; reflexivity).
  split; [exact H |].
  intros Hle. rewrite H. apply u16_small. lia.
Qed.

(** * Further properties of the class *)

(** ** The checksum and the bytes it reads *)

Lemma fletcher16_ref_sums_reduced (bytes : list byte) :
  sums_reduced (fletcher16_ref_sums bytes).
Proof using Type.
  clear has_header. rewrite <- fletcher16_whole.
  apply fletcher16_loop_reduced, sums_reduced_zero.
Qed.

(** X1. [fletcher16] reads the first [count] bytes of the buffer and
    nothing else: on a buffer of at least [count] bytes its result is the
    Fletcher-16 of that prefix.  With a [count] of zero or less the loop
    does not run and the result is 0. *)
Theorem fletcher16_reads_count_bytes :
  (forall (data : list byte) (count : Z),
     count <= Z.of_nat (length data) ->
     fletcher16 data count = fletcher16_ref (take (Z.to_nat count) data))
  /\ (forall (data : list byte) (count : Z),
        count <= 0 -> fletcher16 data count = 0).
Proof using Type.
  clear has_header. split.
  - intros data count Hcount.
    rewrite fletcher16_value, fletcher16_loop_fold by (simpl; lia).
    rewrite drop_0. fold (fletcher16_ref_sums (take (Z.to_nat count) data)).
    unfold fletcher16_ref.
    pose proof (fletcher16_ref_sums_reduced (take (Z.to_nat count) data))
      as [H1 H2].
    destruct (fletcher16_ref_sums (take (Z.to_nat count) data))
      as [sum1 sum2]; simpl in *.
    rewrite lor_shiftl_8 by lia. reflexivity.
  - intros data count Hcount. unfold fletcher16.
    replace (Z.to_nat count) with 0%nat by lia. reflexivity.
Qed.

(** A byte replaced by one of the same value modulo 255 is the same byte
    to every turn of the loop. *)
Lemma fletcher16_step_insert_congruent (data : list byte) (i : nat)
    (b b' : byte) (index : nat) (sums : Z * Z) :
  data !! i = Some b ->
  byte.unsigned b mod 255 = byte.unsigned b' mod 255 ->
  fletcher16_step (<[i := b']> data) index sums
  = fletcher16_step data index sums.
Proof using Type.
  clear has_header. intros Hi Hmod.
  destruct (Nat.eq_dec i index) as [<- | Hne].
  - unfold fletcher16_step.
    rewrite byte_at_insert_eq by (apply lookup_lt_Some in Hi; exact Hi).
    assert (Hb : byte_at data i = b) by (unfold byte_at; rewrite Hi; reflexivity).
    rewrite Hb.
    rewrite (Z.add_mod (fst sums) (byte.unsigned b')) by lia.
    rewrite <- Hmod. rewrite <- Z.add_mod by lia. reflexivity.
  - unfold fletcher16_step. rewrite byte_at_insert_ne by exact Hne.
    reflexivity.
Qed.

Lemma fletcher16_insert_congruent (data : list byte) (i : nat) (b b' : byte)
    (count : Z) :
  data !! i = Some b ->
  byte.unsigned b mod 255 = byte.unsigned b' mod 255 ->
  fletcher16 (<[i := b']> data) count = fletcher16 data count.
Proof using Type.
  clear has_header. intros Hi Hmod. unfold fletcher16.
  assert (Hloop : forall todo index sums,
             fletcher16_loop (<[i := b']> data) index todo sums
             = fletcher16_loop data index todo sums).
  { induction todo as [| todo IH]; intros index sums; simpl.
    - reflexivity.
    - rewrite (fletcher16_step_insert_congruent _ _ b) by assumption.
      apply IH. }
  rewrite Hloop. reflexivity.
Qed.

(** X2. What [fletcher16] sees of one changed byte: the checksum of the
    whole buffer stays the same exactly when the old and the new value are
    equal modulo 255, that is when they are equal or are [0x00] and
    [0xFF]. *)
Theorem fletcher16_single_byte_change :
  forall (data : list byte) (i : nat) (b b' : byte),
    data !! i = Some b ->
    (fletcher16 (<[i := b']> data) (Z.of_nat (length data))
     = fletcher16 data (Z.of_nat (length data))
     <-> byte.unsigned b mod 255 = byte.unsigned b' mod 255).
Proof using Type.
  clear has_header. intros data i b b' Hi. split.
  - intros Heq.
    destruct (Z.eq_dec (byte.unsigned b mod 255) (byte.unsigned b' mod 255))
      as [Hmod | Hmod]; [exact Hmod |].
    exfalso. revert Heq. apply (fletcher16_insert_neq _ _ b); assumption.
  - intros Hmod. apply (fletcher16_insert_congruent _ _ b); assumption.
Qed.

(** The second sum carries a difference of its start value, modulo 255,
    to the end; the first sum does not see it. *)
Lemma fletcher16_ref_fold_shift (bytes : list byte) (sum1 sum2 sum2' : Z) :
  fst (fold_left fletcher16_ref_step bytes (sum1, sum2))
  = fst (fold_left fletcher16_ref_step bytes (sum1, sum2'))
  /\ (snd (fold_left fletcher16_ref_step bytes (sum1, sum2))
      - snd (fold_left fletcher16_ref_step bytes (sum1, sum2'))) mod 255
     = (sum2 - sum2') mod 255.
Proof using Type.
  clear has_header. revert sum1 sum2 sum2'.
  induction bytes as [| b bytes IH]; intros sum1 sum2 sum2'; simpl.
  - split; reflexivity.
  - unfold fletcher16_ref_step at 2 4 6 8. simpl.
    destruct (IH ((sum1 + byte.unsigned b) mod 255)
                ((sum2 + (sum1 + byte.unsigned b) mod 255) mod 255)
                ((sum2' + (sum1 + byte.unsigned b) mod 255) mod 255))
      as [Hfst Hsnd].
    split; [exact Hfst |].
    rewrite Hsnd. rewrite <- Zminus_mod.
    f_equal. lia.
Qed.

(** X3. [fletcher16] depends on the order of the bytes: exchanging two
    neighbours whose values differ modulo 255 changes the checksum of the
    buffer. *)
Theorem fletcher16_order_sensitive :
  forall (before after : list byte) (a b : byte),
    byte.unsigned a mod 255 <> byte.unsigned b mod 255 ->
    fletcher16 (before ++ a :: b :: after)
      (Z.of_nat (length (before ++ a :: b :: after)))
    <> fletcher16 (before ++ b :: a :: after)
         (Z.of_nat (length (before ++ b :: a :: after))).
Proof using Type.
  clear has_header. intros before after a b Hab Heq.
  rewrite !fletcher16_value, !Nat2Z.id, !fletcher16_whole in Heq.
  pose proof (fletcher16_ref_sums_reduced (before ++ a :: b :: after))
    as [Hf1 Hs1].
  pose proof (fletcher16_ref_sums_reduced (before ++ b :: a :: after))
    as [Hf2 Hs2].
  assert (Hsnd : snd (fletcher16_ref_sums (before ++ a :: b :: after))
                 = snd (fletcher16_ref_sums (before ++ b :: a :: after)))
    by lia.
  clear Heq. unfold fletcher16_ref_sums in Hsnd.
  rewrite !fold_left_app in Hsnd. simpl in Hsnd.
  destruct (fold_left fletcher16_ref_step before (0, 0)) as [s1 s2].
  unfold fletcher16_ref_step in Hsnd at 2 3 5 6. simpl in Hsnd.
  replace (((s1 + byte.unsigned b) mod 255 + byte.unsigned a) mod 255)
    with (((s1 + byte.unsigned a) mod 255 + byte.unsigned b) mod 255)
    in Hsnd
    by (rewrite !Zplus_mod_idemp_l; f_equal; lia).
  match type of Hsnd with
  | snd (fold_left _ _ (?x, ?y)) = snd (fold_left _ _ (_, ?y')) =>
      destruct (fletcher16_ref_fold_shift after x y y') as [_ Hshift];
      rewrite Hsnd, Z.sub_diag in Hshift
  end.
  apply Hab. clear - Hshift.
  pose proof (byte_unsigned_bounds a). pose proof (byte_unsigned_bounds b).
  Z.div_mod_to_equations. lia.
Qed.

(** ** The object and its bytes, both ways *)

Lemma byte_of_Z_low (lo hi : byte) :
  byte.of_Z (byte.unsigned lo + 256 * byte.unsigned hi) = lo.
Proof using Type.
  clear has_header. apply byte.unsigned_inj. rewrite byte_unsigned_of_Z.
  pose proof (byte_unsigned_bounds lo).
  rewrite (Z.mul_comm 256), Z.mod_add by lia.
  apply Z.mod_small. lia.
Qed.

Lemma byte_of_Z_high (lo hi : byte) :
  byte.of_Z ((byte.unsigned lo + 256 * byte.unsigned hi) / 256) = hi.
Proof using Type.
  clear has_header. apply byte.unsigned_inj. rewrite byte_unsigned_of_Z.
  pose proof (byte_unsigned_bounds lo). pose proof (byte_unsigned_bounds hi).
  rewrite (Z.mul_comm 256), Z.div_add by lia.
  rewrite (Z.div_small (byte.unsigned lo)) by lia.
  apply Z.mod_small. lia.
Qed.

Lemma object_bytes_memcpy_object (data : list byte) :
  length data = sizeof_T ->
  object_bytes (memcpy_object data) = data.
Proof using has_header.
  intros Hlen.
  destruct data as [| b0 [| b1 [| b2 [| b3 rest]]]];
    simpl in Hlen; try lia.
  unfold object_bytes, memcpy_object, u16_bytes, pw_get, byte_at. simpl.
  rewrite !byte_of_Z_low, !byte_of_Z_high.
  rewrite drop_0, take_ge by lia. reflexivity.
Qed.

Lemma set_m_checksum_same (this : FlashSettings) :
  0 <= m_checksum this < 65536 ->
  set_m_checksum (m_checksum this) this = this.
Proof using Type.
  clear has_header. intros Hsum. destruct this as [size sum p].
  unfold set_m_checksum. simpl in *. rewrite u16_small by exact Hsum.
  reflexivity.
Qed.

(** ** What [begin] loads *)

(** X4. [begin] returns [true] exactly when the stored size field is
    [sizeof(T)] and the stored checksum is the checksum recomputed over the
    stored bytes; the bytes of the object are then the first [sizeof(T)]
    bytes of the storage, header included. *)
Theorem begin_loads_iff_valid :
  forall (this : FlashSettings) (E : EEPROMClass),
    let '(loaded, this', _) := begin this E in
    (loaded = true
     <-> stored_size E = Z.of_nat sizeof_T
         /\ recomputed_checksum E = stored_checksum E)
    /\ (loaded = true -> object_bytes this' = stored_bytes E).
Proof using has_header.
  intros this E.
  destruct (Z.eq_dec (stored_size E) (Z.of_nat sizeof_T)) as [Hsize | Hsize].
  - destruct (Z.eq_dec (recomputed_checksum E) (stored_checksum E))
      as [Hsum | Hsum].
    + rewrite begin_ok by assumption. split; [tauto |].
      intros _. apply object_bytes_memcpy_object, length_stored_bytes.
    + rewrite begin_checksum_mismatch by assumption.
      split; [| discriminate]. split; [discriminate | tauto].
  - rewrite begin_size_mismatch by assumption.
    split; [| discriminate]. split; [discriminate | tauto].
Qed.

(** X5. [begin] can be repeated: a second call, right after the first,
    returns what the first returned and leaves the object as the first
    left it. *)
Theorem begin_twice_same :
  forall (this : FlashSettings) (E : EEPROMClass),
    let '(loaded, this', E') := begin this E in
    exists E'', begin this' E' = (loaded, this', E'').
Proof using Type.
  clear has_header. intros this E.
  rewrite begin_unfold. cbv zeta.
  destruct (negb (stored_size E =? Z.of_nat sizeof_T)) eqn:Hsize.
  - exists (after_begin (after_begin E)).
    rewrite begin_unfold. cbv zeta.
    change (stored_size (after_begin E)) with (stored_size E).
    rewrite Hsize. reflexivity.
  - match goal with
    | |- context [if negb ?c then _ else _] => destruct (negb c) eqn:Hsum
    end.
    + exists (after_begin (after_begin E)).
      rewrite begin_unfold. cbv zeta.
      change (stored_size (after_begin E)) with (stored_size E).
      change (stored_bytes (after_begin E)) with (stored_bytes E).
      change (recomputed_checksum (after_begin E))
        with (recomputed_checksum E).
      change (stored_checksum (after_begin E)) with (stored_checksum E).
      rewrite Hsize, Hsum. reflexivity.
    + exists (after_begin (after_begin E)).
      rewrite begin_unfold. cbv zeta.
      change (stored_size (after_begin E)) with (stored_size E).
      change (stored_bytes (after_begin E)) with (stored_bytes E).
      change (recomputed_checksum (after_begin E))
        with (recomputed_checksum E).
      change (stored_checksum (after_begin E)) with (stored_checksum E).
      rewrite Hsize, Hsum. reflexivity.
Qed.

(** X6. Nothing is written back after a load: on the object that a
    successful [begin] has just loaded, [update] finds the checksum member
    up to date and makes no call on the driver. *)
Theorem update_after_begin_is_idle :
  forall (this : FlashSettings) (E : EEPROMClass),
    let '(loaded, this', E') := begin this E in
    loaded = true -> update this' E' = (tt, this', E').
Proof using has_header.
  intros this E.
  destruct (Z.eq_dec (stored_size E) (Z.of_nat sizeof_T)) as [Hsize | Hsize].
  2: { rewrite begin_size_mismatch by assumption. discriminate. }
  destruct (Z.eq_dec (recomputed_checksum E) (stored_checksum E))
    as [Hsum | Hsum].
  2: { rewrite begin_checksum_mismatch by assumption. discriminate. }
  rewrite begin_ok by assumption. intros _.
  set (this' := memcpy_object (stored_bytes E)).
  assert (Hcomputed : computed_checksum this' = m_checksum this').
  { unfold computed_checksum. rewrite <- pw_set_object_bytes.
    unfold this'.
    rewrite object_bytes_memcpy_object by apply length_stored_bytes.
    exact Hsum. }
  rewrite update_unchanged by (symmetry; exact Hcomputed).
  rewrite Hcomputed, set_m_checksum_same; [reflexivity |].
  apply pw_get_bounds.
Qed.

(** ** Where [update] and [begin] touch the storage *)

Lemma update_write_loop_frame (pData : list byte) (todo i : nat)
    (E : EEPROMClass) :
  length (cells (update_write_loop pData i todo E)) = length (cells E)
  /\ forall j : nat,
       (j < i \/ i + todo <= j)%nat ->
       cells (update_write_loop pData i todo E) !! j = cells E !! j.
Proof using Type.
  clear has_header. revert i E.
  induction todo as [| todo IH]; intros i E; simpl.
  - split; reflexivity.
  - destruct (IH (S i) (EEPROM_write i (byte_at pData i) E)) as [Hlen Hget].
    simpl in Hlen, Hget. rewrite length_insert in Hlen.
    split; [exact Hlen |].
    intros j Hj. rewrite Hget by lia.
    apply list_lookup_insert_ne. lia.
Qed.

(** X7. [update] stays inside the record: whatever it does, the storage
    keeps its length and every byte at offset [sizeof(T)] or beyond; and of
    the object only the checksum member can change, the size member and
    the payload are kept. *)
Theorem update_frame :
  forall (this : FlashSettings) (E : EEPROMClass),
    let '(_, this1, E1) := update this E in
    length (cells E1) = length (cells E)
    /\ (forall j : nat, (sizeof_T <= j)%nat -> cells E1 !! j = cells E !! j)
    /\ m_size this1 = m_size this
    /\ payload this1 = payload this.
Proof using Type.
  clear has_header. intros this E.
  rewrite update_unfold. cbv zeta.
  destruct (m_checksum this =? computed_checksum this).
  - repeat split.
  - destruct (update_write_loop_frame
                (object_bytes (set_m_checksum (computed_checksum this) this))
                sizeof_T 0 E) as [Hlen Hget].
    repeat split.
    + exact Hlen.
    + intros j Hj. apply Hget. lia.
Qed.

Lemma forallb_call_within_reads (limit n : nat) :
  (n <= limit)%nat ->
  forallb (call_within limit) (map call_read (seq 0 n)) = true.
Proof using Type.
  clear has_header. intros Hn. apply forallb_forall.
  intros c Hc. apply in_map_iff in Hc. destruct Hc as (i & <- & Hi).
  apply in_seq in Hi. simpl. apply Nat.ltb_lt. lia.
Qed.

Lemma forallb_call_within_writes (limit n : nat) (pData : list byte) :
  (n <= limit)%nat ->
  forallb (call_within limit)
    (map (fun i => call_write i (byte_at pData i)) (seq 0 n)) = true.
Proof using Type.
  clear has_header. intros Hn. apply forallb_forall.
  intros c Hc. apply in_map_iff in Hc. destruct Hc as (i & <- & Hi).
  apply in_seq in Hi. simpl. apply Nat.ltb_lt. lia.
Qed.

(** X8. What the first [static_assert] of [begin] buys: when [sizeof(T)]
    is at most [FlashPartitionSize], every address that [begin] reads and
    every address that [update] writes lies below [FlashPartitionSize], the
    size the region is opened with. *)
Theorem driver_calls_within_partition :
  (sizeof_T <= FlashPartitionSize)%nat ->
  forall (this : FlashSettings) (E : EEPROMClass),
    (let '(_, _, E') := begin this E in
     exists new,
       calls E' = calls E ++ new
       /\ forallb (call_within FlashPartitionSize) new = true)
    /\ (let '(_, _, E1) := update this E in
        exists new,
          calls E1 = calls E ++ new
          /\ forallb (call_within FlashPartitionSize) new = true).
Proof using Type.
  clear has_header. intros Hfits this E. split.
  - destruct (begin_cases this E) as (loaded & this' & -> & _).
    exists begin_calls. split; [reflexivity |].
    unfold begin_calls. simpl.
    apply forallb_call_within_reads, Hfits.
  - rewrite update_unfold. cbv zeta.
    destruct (m_checksum this =? computed_checksum this).
    + exists []. split; [rewrite app_nil_r; reflexivity | reflexivity].
    + eexists. split; [apply calls_after_write |].
      unfold write_calls. rewrite forallb_app. simpl.
      rewrite forallb_call_within_writes by exact Hfits. reflexivity.
Qed.

(** ** Corruption of the stored record *)

Lemma stored_bytes_take (E : EEPROMClass) :
  (sizeof_T <= length (cells E))%nat ->
  stored_bytes E = take sizeof_T (cells E).
Proof using Type.
  clear has_header. intros Hcap. apply map_byte_at_seq, Hcap.
Qed.

Lemma stored_bytes_corrupt_byte (E : EEPROMClass) (i : nat) (b' : byte) :
  (sizeof_T <= length (cells E))%nat ->
  (i < sizeof_T)%nat ->
  stored_bytes (corrupt_byte i b' E) = <[i := b']> (stored_bytes E).
Proof using Type.
  clear has_header. intros Hcap Hi.
  rewrite !stored_bytes_take by (simpl; rewrite ?length_insert; exact Hcap).
  simpl. apply take_insert_lt, Hi.
Qed.

Lemma stored_bytes_lookup (E : EEPROMClass) (i : nat) (b : byte) :
  (sizeof_T <= length (cells E))%nat ->
  (i < sizeof_T)%nat ->
  cells E !! i = Some b ->
  stored_bytes E !! i = Some b.
Proof using Type.
  clear has_header. intros Hcap Hi Hb.
  rewrite stored_bytes_take by exact Hcap.
  rewrite lookup_take_lt by exact Hi. exact Hb.
Qed.

Lemma byte_at_Some (data : list byte) (i : nat) (b : byte) :
  data !! i = Some b -> byte_at data i = b.
Proof using Type.
  clear has_header. intros Hb. unfold byte_at. rewrite Hb. reflexivity.
Qed.

Lemma byte_unsigned_neq (b b' : byte) :
  b' <> b -> byte.unsigned b' <> byte.unsigned b.
Proof using Type.
  clear has_header. intros Hne Heq. apply Hne, byte.unsigned_inj, Heq.
Qed.

(** A changed byte changes the two-byte value it is part of. *)
Lemma pw_get_insert_neq (data : list byte) (k i : nat) (b b' : byte) :
  (i = 2 * k \/ i = 2 * k + 1)%nat ->
  data !! i = Some b ->
  b' <> b ->
  pw_get (<[i := b']> data) k <> pw_get data k.
Proof using Type.
  clear has_header. intros Hi Hb Hne.
  pose proof (lookup_lt_Some _ _ _ Hb) as Hlen.
  pose proof (byte_unsigned_neq b b' Hne) as Hval.
  pose proof (byte_at_Some _ _ _ Hb) as Hat.
  unfold pw_get. destruct Hi as [-> | ->].
  - rewrite byte_at_insert_eq by exact Hlen.
    rewrite byte_at_insert_ne by lia. rewrite Hat. lia.
  - rewrite byte_at_insert_ne by lia.
    rewrite byte_at_insert_eq by exact Hlen. rewrite Hat. lia.
Qed.

(** A byte changed elsewhere leaves a two-byte value alone. *)
Lemma pw_get_insert_other (data : list byte) (k i : nat) (b' : byte) :
  (i <> 2 * k)%nat -> (i <> 2 * k + 1)%nat ->
  pw_get (<[i := b']> data) k = pw_get data k.
Proof using Type.
  clear has_header. intros H0 H1. unfold pw_get.
  rewrite !byte_at_insert_ne by assumption. reflexivity.
Qed.

(** Assigning [pwTemp[k]] wipes out a change of one of its two bytes, and
    commutes with a change elsewhere. *)
Lemma pw_set_insert_same (data : list byte) (k i : nat) (b' : byte) (v : Z) :
  (i = 2 * k \/ i = 2 * k + 1)%nat ->
  pw_set (<[i := b']> data) k v = pw_set data k v.
Proof using Type.
  clear has_header. intros [-> | ->]; unfold pw_set.
  - rewrite list_insert_insert_eq. reflexivity.
  - rewrite (list_insert_insert_ne _ (2 * k) (2 * k + 1)) by lia.
    rewrite list_insert_insert_eq. reflexivity.
Qed.

Lemma pw_set_insert_other (data : list byte) (k i : nat) (b' : byte) (v : Z) :
  (i <> 2 * k)%nat -> (i <> 2 * k + 1)%nat ->
  pw_set (<[i := b']> data) k v = <[i := b']> (pw_set data k v).
Proof using Type.
  clear has_header. intros H0 H1. unfold pw_set.
  rewrite (list_insert_insert_ne _ (2 * k) i) by lia.
  rewrite (list_insert_insert_ne _ (2 * k + 1) i) by lia.
  reflexivity.
Qed.

Lemma begin_corrupt_header (this : FlashSettings) (E : EEPROMClass)
    (i : nat) (b b' : byte) :
  holds_valid_record E ->
  (i < 4)%nat ->
  cells E !! i = Some b ->
  b' <> b ->
  begin this (corrupt_byte i b' E)
  = (false, this, after_begin (corrupt_byte i b' E)).
Proof using has_header.
  intros (Hcap & Hsize & Hsum) Hi Hb Hne.
  pose proof (stored_bytes_lookup E i b Hcap ltac:(lia) Hb) as Hstored.
  destruct (Nat.lt_ge_cases i 2) as [Hlow | Hhigh].
  - apply begin_size_mismatch. unfold stored_size.
    rewrite stored_bytes_corrupt_byte by lia.
    fold (stored_size E) in Hsize. rewrite <- Hsize. unfold stored_size.
    apply (pw_get_insert_neq _ 0 i b); [lia | exact Hstored | exact Hne].
  - apply begin_checksum_mismatch.
    + unfold stored_size. rewrite stored_bytes_corrupt_byte by lia.
      rewrite pw_get_insert_other by lia. exact Hsize.
    + unfold recomputed_checksum, stored_checksum.
      rewrite stored_bytes_corrupt_byte by lia.
      rewrite pw_set_insert_same by lia.
      fold (recomputed_checksum E). rewrite Hsum. unfold stored_checksum.
      intros Heq. symmetry in Heq. revert Heq.
      apply (pw_get_insert_neq _ 1 i b); [lia | exact Hstored | exact Hne].
Qed.

Lemma recomputed_checksum_corrupt_payload (E : EEPROMClass) (i : nat)
    (b' : byte) :
  (sizeof_T <= length (cells E))%nat ->
  (4 <= i < sizeof_T)%nat ->
  stored_size (corrupt_byte i b' E) = stored_size E
  /\ stored_checksum (corrupt_byte i b' E) = stored_checksum E
  /\ recomputed_checksum (corrupt_byte i b' E)
     = fletcher16 (<[i := b']> (pw_set (stored_bytes E) 1 0))
         (Z.of_nat sizeof_T).
Proof using Type.
  clear has_header. intros Hcap Hi.
  unfold stored_size, stored_checksum, recomputed_checksum.
  rewrite stored_bytes_corrupt_byte by lia.
  rewrite !pw_get_insert_other by lia.
  rewrite pw_set_insert_other by lia.
  repeat split.
Qed.

Lemma pw_set_lookup_other (data : list byte) (k i : nat) (v : Z) :
  (i <> 2 * k)%nat -> (i <> 2 * k + 1)%nat ->
  pw_set data k v !! i = data !! i.
Proof using Type.
  clear has_header. intros H0 H1. unfold pw_set.
  rewrite !list_lookup_insert_ne by lia. reflexivity.
Qed.

Lemma begin_corrupt_payload_detected (this : FlashSettings)
    (E : EEPROMClass) (i : nat) (b b' : byte) :
  holds_valid_record E ->
  (4 <= i < sizeof_T)%nat ->
  cells E !! i = Some b ->
  byte.unsigned b mod 255 <> byte.unsigned b' mod 255 ->
  begin this (corrupt_byte i b' E)
  = (false, this, after_begin (corrupt_byte i b' E)).
Proof using has_header.
  intros (Hcap & Hsize & Hsum) Hi Hb Hmod.
  destruct (recomputed_checksum_corrupt_payload E i b' Hcap Hi)
    as (Hsize' & Hsum' & Hre).
  apply begin_checksum_mismatch; [congruence |].
  rewrite Hre, Hsum', <- Hsum. unfold recomputed_checksum.
  rewrite <- (length_stored_bytes E) at 1 2.
  rewrite <- (length_pw_set (stored_bytes E) 1 0).
  apply (fletcher16_insert_neq _ _ b); [| exact Hmod].
  rewrite pw_set_lookup_other by lia.
  apply stored_bytes_lookup; [exact Hcap | lia | exact Hb].
Qed.

Lemma begin_corrupt_payload_missed (this : FlashSettings)
    (E : EEPROMClass) (i : nat) (b b' : byte) :
  holds_valid_record E ->
  (4 <= i < sizeof_T)%nat ->
  cells E !! i = Some b ->
  byte.unsigned b mod 255 = byte.unsigned b' mod 255 ->
  begin this (corrupt_byte i b' E)
  = (true, memcpy_object (<[i := b']> (stored_bytes E)),
     after_begin (corrupt_byte i b' E)).
Proof using has_header.
  intros (Hcap & Hsize & Hsum) Hi Hb Hmod.
  destruct (recomputed_checksum_corrupt_payload E i b' Hcap Hi)
    as (Hsize' & Hsum' & Hre).
  rewrite begin_ok.
  - rewrite stored_bytes_corrupt_byte by lia. reflexivity.
  - congruence.
  - rewrite Hre, Hsum', <- Hsum. unfold recomputed_checksum.
    apply (fletcher16_insert_congruent _ _ b); [| exact Hmod].
    rewrite pw_set_lookup_other by lia.
    apply stored_bytes_lookup; [exact Hcap | lia | exact Hb].
Qed.

Lemma flip_bit_mod_255 (k : nat) (b : byte) :
  (k < 8)%nat ->
  byte.unsigned b mod 255 <> byte.unsigned (flip_bit k b) mod 255.
Proof using Type.
  clear has_header. intros Hk.
  do 8 (destruct k as [| k]; [destruct b; vm_compute; discriminate |]).
  lia.
Qed.

Lemma flip_bit_neq (k : nat) (b : byte) : (k < 8)%nat -> flip_bit k b <> b.
Proof using Type.
  clear has_header. intros Hk Heq.
  apply (flip_bit_mod_255 k b Hk). rewrite Heq. reflexivity.
Qed.

(** X9. A change of one payload byte of a valid stored record, from [b]
    to [b'], is caught by [begin] exactly when the two values differ modulo
    255.  Caught, the object is kept; missed (the values are equal, or are
    [0x00] and [0xFF]), [begin] returns [true] and the changed byte is in
    the payload it loads. *)
Theorem payload_corruption_detected_iff :
  forall (this : FlashSettings) (E : EEPROMClass) (i : nat) (b b' : byte),
    holds_valid_record E ->
    (4 <= i < sizeof_T)%nat ->
    cells E !! i = Some b ->
    let '(loaded, this', _) := begin this (corrupt_byte i b' E) in
    (loaded = false
     <-> byte.unsigned b mod 255 <> byte.unsigned b' mod 255)
    /\ (loaded = false -> this' = this)
    /\ (loaded = true -> payload this' !! (i - 4)%nat = Some b').
Proof using has_header.
  intros this E i b b' Hvalid Hi Hb.
  destruct (Z.eq_dec (byte.unsigned b mod 255) (byte.unsigned b' mod 255))
    as [Hmod | Hmod].
  - rewrite (begin_corrupt_payload_missed this E i b b') by assumption.
    split; [split; [discriminate | tauto] |].
    split; [discriminate |]. intros _. simpl.
    rewrite lookup_take_lt by lia. rewrite lookup_drop.
    replace (4 + (i - 4))%nat with i by lia.
    apply list_lookup_insert_eq. rewrite length_stored_bytes. lia.
  - rewrite (begin_corrupt_payload_detected this E i b b') by assumption.
    split; [tauto |]. split; [reflexivity | discriminate].
Qed.

(** X10. Any change of one of the four header bytes of a valid stored
    record is caught: a changed size byte fails the size check, a changed
    checksum byte fails the checksum check; [begin] returns [false] and
    keeps the object. *)
Theorem header_corruption_detected :
  forall (this : FlashSettings) (E : EEPROMClass) (i : nat) (b b' : byte),
    holds_valid_record E ->
    (i < 4)%nat ->
    cells E !! i = Some b ->
    b' <> b ->
    let '(loaded, this', _) := begin this (corrupt_byte i b' E) in
    loaded = false /\ this' = this.
Proof using has_header.
  intros this E i b b' Hvalid Hi Hb Hne.
  rewrite (begin_corrupt_header this E i b b') by assumption.
  split; reflexivity.
Qed.

(** X11. Every single-bit error is caught: whichever bit of whichever of
    the [sizeof(T)] bytes of a valid stored record is inverted, [begin]
    returns [false] and keeps the object. *)
Theorem bit_flip_detected :
  forall (this : FlashSettings) (E : EEPROMClass) (i k : nat) (b : byte),
    holds_valid_record E ->
    (i < sizeof_T)%nat ->
    cells E !! i = Some b ->
    (k < 8)%nat ->
    let '(loaded, this', _) :=
      begin this (corrupt_byte i (flip_bit k b) E) in
    loaded = false /\ this' = this.
Proof using has_header.
  intros this E i k b Hvalid Hi Hb Hk.
  destruct (Nat.lt_ge_cases i 4) as [Hhdr | Hpay].
  - rewrite (begin_corrupt_header this E i b (flip_bit k b));
      [split; reflexivity | assumption .. | apply flip_bit_neq, Hk].
  - rewrite (begin_corrupt_payload_detected this E i b (flip_bit k b));
      [split; reflexivity | assumption | lia | assumption
      | apply flip_bit_mod_255, Hk].
Qed.

Lemma byte_at_stored_bytes (E : EEPROMClass) (i : nat) :
  (i < sizeof_T)%nat ->
  byte_at (stored_bytes E) i = byte_at (cells E) i.
Proof using Type.
  clear has_header. intros Hi. unfold stored_bytes, byte_at at 1.
  change (map (byte_at (cells E)) (seq 0 sizeof_T))
    with (byte_at (cells E) <$> seq 0 sizeof_T).
  rewrite list_lookup_fmap, lookup_seq_lt by exact Hi. reflexivity.
Qed.

(** The size field [begin] tests is the first two bytes of the storage,
    whatever [sizeof(T)] is. *)
Lemma stored_size_cells (E : EEPROMClass) :
  stored_size E = pw_get (cells E) 0.
Proof using has_header.
  unfold stored_size, pw_get.
  rewrite !byte_at_stored_bytes by (simpl; lia). reflexivity.
Qed.

(** X12. What a write leaves behind: when [update] writes an object whose
    size member holds [sizeof(T)] into a region large enough for it, the
    storage then holds a valid record, and its first [sizeof(T)] bytes are
    the bytes of the object, checksum member included. *)
Theorem update_stores_valid_record :
  forall (this : FlashSettings) (E : EEPROMClass),
    well_sized this ->
    m_size this = Z.of_nat sizeof_T ->
    Z.of_nat sizeof_T < 65536 ->
    (sizeof_T <= length (cells E))%nat ->
    m_checksum this <> computed_checksum this ->
    let '(_, this1, E1) := update this E in
    holds_valid_record E1 /\ stored_bytes E1 = object_bytes this1.
Proof using Type.
  clear has_header. intros this E Hsized Hsize H16 Hcap Hdiff.
  rewrite update_written by exact Hdiff.
  set (this1 := set_m_checksum (computed_checksum this) this).
  set (E1 := EEPROM_commit _).
  assert (Hbytes : stored_bytes E1 = object_bytes this1)
    by (apply stored_bytes_after_write; [exact Hsized | exact Hcap]).
  split; [| exact Hbytes].
  split; [| split].
  - unfold E1. rewrite cells_after_write by (try exact Hsized; exact Hcap).
    rewrite length_app, length_drop, length_object_bytes.
    change (payload this1) with (payload this).
    unfold well_sized in Hsized. lia.
  - unfold stored_size. rewrite Hbytes, pw_get_object_bytes_0.
    change (m_size this1) with (m_size this).
    rewrite Hsize. apply u16_small. lia.
  - unfold recomputed_checksum, stored_checksum.
    rewrite Hbytes, pw_set_object_bytes, pw_get_object_bytes_1.
    unfold this1. rewrite m_checksum_after_update.
    rewrite u16_small by apply computed_checksum_bounds.
    reflexivity.
Qed.

End FlashSettings.

(** * Two settings types on one storage *)

(** X13. A change of the size of [T] is caught: a storage that holds a valid
    record of a settings type of [sizeof_T] bytes is refused by [begin] of a
    settings type of another size, which returns [false] and keeps its
    object. *)
Theorem schema_drift_detected :
  forall (sizeof_T sizeof_T' FlashPartitionSize' : nat)
         (this : FlashSettings) (E : EEPROMClass),
    (4 <= sizeof_T)%nat ->
    (4 <= sizeof_T')%nat ->
    sizeof_T' <> sizeof_T ->
    holds_valid_record sizeof_T E ->
    let '(loaded, this', _) := begin sizeof_T' FlashPartitionSize' this E in
    loaded = false /\ this' = this.
Proof.
  intros sizeof_T sizeof_T' FlashPartitionSize' this E Hhdr Hhdr' Hne
    (_ & Hsize & _).
  rewrite begin_size_mismatch; [split; reflexivity |].
  rewrite (stored_size_cells sizeof_T' Hhdr').
  rewrite <- (stored_size_cells sizeof_T Hhdr), Hsize. lia.
Qed.

(** * The theorems at concrete stores

    A settings type of six bytes, header and two bytes of payload, in a
    partition of eight bytes. *)

(** The round trip of a fresh object with payload [00 07], over erased
    storage. *)
Lemma save_then_load_witness :
  let this := FlashSettings_new 6 [Byte.x00; Byte.x07] in
  let E := mkEEPROM (replicate 8 Byte.xff) [] in
  well_sized 6 this
  /\ m_size this = 6
  /\ m_checksum this <> computed_checksum 6 this
  /\ let '(_, this1, E1) := update 6 this E in
     let '(loaded, fresh, _) :=
       begin 6 8 (FlashSettings_new 6 [Byte.x00; Byte.x00]) E1 in
     loaded = true /\ payload fresh = payload this /\ fresh = this1.
Proof.
  assert (Hsized : well_sized 6 (FlashSettings_new 6 [Byte.x00; Byte.x07]))
    by reflexivity.
  assert (Hdiff : m_checksum (FlashSettings_new 6 [Byte.x00; Byte.x07])
                  <> computed_checksum 6
                       (FlashSettings_new 6 [Byte.x00; Byte.x07]))
    by (vm_compute; discriminate).
  cbv zeta. split; [exact Hsized |]. split; [reflexivity |].
  split; [exact Hdiff |].
  apply (save_then_load 6 8 ltac:(lia)
           (FlashSettings_new 6 [Byte.x00; Byte.x07])
           (mkEEPROM (replicate 8 Byte.xff) [])
           [Byte.x00; Byte.x00]);
    [exact Hsized | reflexivity | reflexivity | lia | simpl; lia
    | exact Hdiff].
Defined.

(** The round trip fails where [update] sees no change.  An object with
    payload [00 07] is saved; its first payload byte then goes to [FF], which
    the checksum does not tell from [00].  [update] on the object with payload
    [FF 07] makes no call on the driver, and [begin] on a fresh object loads
    the payload [00 07] of the earlier save. *)
Lemma save_then_load_counterexample :
  let E0 := mkEEPROM (replicate 8 Byte.xff) [] in
  let '(_, saved, E) := update 6 (FlashSettings_new 6 [Byte.x00; Byte.x07]) E0 in
  let this := set_payload_byte 0 Byte.xff saved in
  let '(_, this1, E1) := update 6 this E in
  let '(loaded, fresh, _) :=
    begin 6 8 (FlashSettings_new 6 [Byte.x00; Byte.x00]) E1 in
  payload this = [Byte.xff; Byte.x07]
  /\ E1 = E
  /\ loaded = true
  /\ payload fresh = [Byte.x00; Byte.x07]
  /\ payload fresh <> payload this.
Proof. vm_compute. repeat split. discriminate. Qed.

(** A mutation that is written: the first payload byte goes from [00] to
    [01]. *)
Lemma mutation_triggers_write_witness :
  let this := FlashSettings_new 6 [Byte.x00; Byte.x07] in
  let E := mkEEPROM (replicate 8 Byte.xff) [] in
  well_sized 6 this
  /\ payload this !! 0%nat = Some Byte.x00
  /\ byte.unsigned Byte.x00 mod 255 <> byte.unsigned Byte.x01 mod 255
  /\ let '(_, this1, E1) := update 6 this E in
     let '(_, this2, E2) := update 6 (set_payload_byte 0 Byte.x01 this1) E1 in
     calls E2 = calls E1 ++ write_calls 6 (object_bytes this2).
Proof.
  assert (Hmod : byte.unsigned Byte.x00 mod 255
                 <> byte.unsigned Byte.x01 mod 255)
    by (vm_compute; discriminate).
  cbv zeta. split; [reflexivity |]. split; [reflexivity |].
  split; [exact Hmod |].
  apply (mutation_triggers_write 6
           (FlashSettings_new 6 [Byte.x00; Byte.x07])
           (mkEEPROM (replicate 8 Byte.xff) []) 0 Byte.x00 Byte.x01);
    [reflexivity | reflexivity | exact Hmod].
Defined.

(** A mutation that [update] does not see: the first payload byte goes from
    [00] to [FF], the checksum is the same, and the second call makes no
    call on the driver at all. *)
Lemma mutation_triggers_write_counterexample :
  let this := FlashSettings_new 6 [Byte.x00; Byte.x07] in
  let E := mkEEPROM (replicate 8 Byte.xff) [] in
  let '(_, this1, E1) := update 6 this E in
  let '(_, this2, E2) := update 6 (set_payload_byte 0 Byte.xff this1) E1 in
  payload this1 !! 0%nat = Some Byte.x00
  /\ payload this2 !! 0%nat = Some Byte.xff
  /\ E2 = E1.
Proof. vm_compute. repeat split. Qed.

(** A failed load: the storage holds the right size and a wrong
    checksum. *)
Lemma begin_failure_keeps_object_witness :
  let this := FlashSettings_new 6 [Byte.x00; Byte.x07] in
  let E :=
    mkEEPROM
      [Byte.x06; Byte.x00; Byte.x34; Byte.x12; Byte.x01; Byte.x02;
       Byte.xff; Byte.xff] [] in
  (stored_size 6 E <> 6
   \/ (stored_size 6 E = 6 /\ recomputed_checksum 6 E <> stored_checksum 6 E))
  /\ let '(loaded, this', _) := begin 6 8 this E in
     loaded = false /\ this' = this.
Proof.
  assert (H : stored_size 6
                (mkEEPROM
                   [Byte.x06; Byte.x00; Byte.x34; Byte.x12; Byte.x01;
                    Byte.x02; Byte.xff; Byte.xff] []) <> 6
              \/ (stored_size 6
                    (mkEEPROM
                       [Byte.x06; Byte.x00; Byte.x34; Byte.x12; Byte.x01;
                        Byte.x02; Byte.xff; Byte.xff] []) = 6
                  /\ recomputed_checksum 6
                       (mkEEPROM
                          [Byte.x06; Byte.x00; Byte.x34; Byte.x12; Byte.x01;
                           Byte.x02; Byte.xff; Byte.xff] [])
                     <> stored_checksum 6
                          (mkEEPROM
                             [Byte.x06; Byte.x00; Byte.x34; Byte.x12;
                              Byte.x01; Byte.x02; Byte.xff; Byte.xff] []))).
  { right. split; [reflexivity | vm_compute; discriminate]. }
  cbv zeta. split; [exact H |].
  apply (begin_failure_keeps_object 6 8 ltac:(lia)
           (FlashSettings_new 6 [Byte.x00; Byte.x07]) _ H).
Defined.

(** C5. The first [update] on a freshly constructed object is to write it:
    the object was never saved.  The code misses this for the six-byte
    object with payload [E1 C2]: its checksum is [0xAAAA], the very value
    the constructor put in the checksum member to stand for "not saved
    yet", so the first call finds nothing to do and makes no call on the
    driver; the storage stays erased and [begin] on the next fresh object
    finds no record. *)
Lemma first_update_lost_on_sentinel_checksum :
  let this := FlashSettings_new 6 [Byte.xe1; Byte.xc2] in
  let E := mkEEPROM (replicate 8 Byte.xff) [] in
  m_checksum this = 0xAAAA
  /\ computed_checksum 6 this = 0xAAAA
  /\ update 6 this E = (tt, this, E)
  /\ let '(loaded, _, _) :=
       begin 6 8 (FlashSettings_new 6 [Byte.x00; Byte.x00]) E in
     loaded = false.
Proof. vm_compute. repeat split. Qed.

(** A load from an erased partition of eight bytes. *)
Lemma begin_on_fresh_storage_witness :
  let this := FlashSettings_new 6 [Byte.x00; Byte.x07] in
  let E := mkEEPROM (replicate 8 Byte.xff) [] in
  (6 <= 8)%nat
  /\ (cells E = replicate 8 Byte.xff \/ cells E = replicate 8 Byte.x00)
  /\ let '(loaded, this', _) := begin 6 8 this E in
     loaded = false /\ this' = this.
Proof.
  cbv zeta. split; [lia |]. split; [left; reflexivity |].
  apply (begin_on_fresh_storage 6 8 ltac:(lia) [Byte.x00; Byte.x07]
           (mkEEPROM (replicate 8 Byte.xff) []) 8);
    [lia | lia | left; reflexivity].
Defined.

(** The size member along a life of the six-byte store. *)
Lemma m_size_invariant_witness :
  let ops :=
    [op_begin; op_update; op_set_payload [Byte.x2a; Byte.x07]; op_update;
     op_begin] in
  let s :=
    run 6 8 ops
      (FlashSettings_new 6 [Byte.x00; Byte.x07],
       mkEEPROM (replicate 8 Byte.xff) []) in
  6 <= 65535 /\ m_size (fst s) = 6.
Proof.
  cbv zeta. split; [lia |].
  apply (m_size_invariant 6 8 [Byte.x00; Byte.x07]
           (mkEEPROM (replicate 8 Byte.xff) [])). simpl. lia.
Defined.

(** A settings type of 65540 bytes passes both [static_assert]s in a
    partition of that size, and its size member holds 4 from the
    construction on. *)
Lemma m_size_invariant_counterexample :
  let sizeof_T := Z.to_nat 65540 in
  let this := FlashSettings_new sizeof_T (replicate (sizeof_T - 4) Byte.x00) in
  let E := mkEEPROM (replicate sizeof_T Byte.xff) [] in
  well_sized sizeof_T this
  /\ m_size (fst (run sizeof_T sizeof_T [op_begin; op_update] (this, E))) = 4
  /\ m_size (fst (run sizeof_T sizeof_T [op_begin; op_update] (this, E)))
     <> Z.of_nat sizeof_T.
Proof.
  cbv zeta.
  assert (H : m_size
                (fst (run (Z.to_nat 65540) (Z.to_nat 65540)
                        [op_begin; op_update]
                        (FlashSettings_new (Z.to_nat 65540)
                           (replicate (Z.to_nat 65540 - 4) Byte.x00),
                         mkEEPROM (replicate (Z.to_nat 65540) Byte.xff) [])))
              = 4).
  { rewrite run_m_size by reflexivity.
    rewrite Z2Nat.id by lia. reflexivity. }
  split; [| split].
  - unfold well_sized, FlashSettings_new. cbn [payload].
    rewrite length_replicate. lia.
  - exact H.
  - rewrite H, Z2Nat.id by lia. discriminate.
Qed.

(** The outcome of a save of a fresh object over erased storage: the call
    writes. *)
Lemma update_outcomes_witness :
  let this := FlashSettings_new 6 [Byte.x00; Byte.x07] in
  let E := mkEEPROM (replicate 8 Byte.xff) [] in
  m_checksum this <> computed_checksum 6 this
  /\ well_sized 6 this
  /\ let '(_, this1, E1) := update 6 this E in
     calls E1 = calls E ++ write_calls 6 (object_bytes this1)
     /\ cells E1 = object_bytes this1 ++ drop 6 (cells E).
Proof.
  assert (Hdiff : m_checksum (FlashSettings_new 6 [Byte.x00; Byte.x07])
                  <> computed_checksum 6
                       (FlashSettings_new 6 [Byte.x00; Byte.x07]))
    by (vm_compute; discriminate).
  assert (Hsized : well_sized 6 (FlashSettings_new 6 [Byte.x00; Byte.x07]))
    by reflexivity.
  pose proof (update_outcomes 6 (FlashSettings_new 6 [Byte.x00; Byte.x07])
                (mkEEPROM (replicate 8 Byte.xff) [])) as H.
  cbv zeta. split; [exact Hdiff |]. split; [exact Hsized |].
  destruct (update 6 (FlashSettings_new 6 [Byte.x00; Byte.x07])
              (mkEEPROM (replicate 8 Byte.xff) []))
    as [[result this1] E1].
  destruct H as (_ & _ & _ & Hwritten).
  destruct (Hwritten Hdiff) as [Hcalls Hcells].
  split; [exact Hcalls |].
  apply Hcells; [exact Hsized | simpl; lia].
Defined.

(** The value [update] returns tells nothing: a call that writes and a call
    that finds nothing to do return the same (empty) result. *)
Lemma update_outcomes_counterexample :
  let this := FlashSettings_new 6 [Byte.x00; Byte.x07] in
  let E := mkEEPROM (replicate 8 Byte.xff) [] in
  let '(written, this1, E1) := update 6 this E in
  let '(unchanged, this2, E2) := update 6 this1 E1 in
  calls E1 = calls E ++ write_calls 6 (object_bytes this1)
  /\ E2 = E1
  /\ written = unchanged.
Proof. vm_compute. repeat split. Qed.

(** ** The further properties at concrete stores

    The storage [06 00 0D 2B 00 07 FF FF] holds the valid record of a
    six-byte settings type with payload [00 07]. *)

(** The checksum of the first two of three bytes, and of no byte at all. *)
Lemma fletcher16_reads_count_bytes_witness :
  2 <= Z.of_nat (length [Byte.x01; Byte.x02; Byte.x03])
  /\ fletcher16 [Byte.x01; Byte.x02; Byte.x03] 2
     = fletcher16_ref [Byte.x01; Byte.x02]
  /\ -1 <= 0
  /\ fletcher16 [Byte.x01; Byte.x02; Byte.x03] (-1) = 0.
Proof.
  destruct fletcher16_reads_count_bytes as [Hprefix Hempty].
  split; [simpl; lia |]. split.
  - apply (Hprefix [Byte.x01; Byte.x02; Byte.x03] 2). simpl. lia.
  - split; [lia |]. apply Hempty. lia.
Defined.

(** The checksum does not see [00] become [FF]. *)
Lemma fletcher16_single_byte_change_witness :
  [Byte.x00; Byte.x07] !! 0%nat = Some Byte.x00
  /\ (fletcher16 (<[0%nat := Byte.xff]> [Byte.x00; Byte.x07]) 2
      = fletcher16 [Byte.x00; Byte.x07] 2
      <-> byte.unsigned Byte.x00 mod 255 = byte.unsigned Byte.xff mod 255).
Proof.
  split; [reflexivity |].
  apply (fletcher16_single_byte_change [Byte.x00; Byte.x07] 0
           Byte.x00 Byte.xff).
  reflexivity.
Defined.

(** [01 02] and [02 01] have different checksums. *)
Lemma fletcher16_order_sensitive_witness :
  byte.unsigned Byte.x01 mod 255 <> byte.unsigned Byte.x02 mod 255
  /\ fletcher16 [Byte.x01; Byte.x02] 2 <> fletcher16 [Byte.x02; Byte.x01] 2.
Proof.
  assert (H : byte.unsigned Byte.x01 mod 255
              <> byte.unsigned Byte.x02 mod 255)
    by (vm_compute; discriminate).
  split; [exact H |].
  apply (fletcher16_order_sensitive [] [] Byte.x01 Byte.x02 H).
Defined.

(** A load of the valid record, and the save that follows it. *)
Lemma update_after_begin_is_idle_witness :
  let this := FlashSettings_new 6 [Byte.x00; Byte.x00] in
  let E :=
    mkEEPROM
      [Byte.x06; Byte.x00; Byte.x0d; Byte.x2b; Byte.x00; Byte.x07;
       Byte.xff; Byte.xff] [] in
  let '(loaded, this', E') := begin 6 8 this E in
  loaded = true /\ update 6 this' E' = (tt, this', E').
Proof.
  cbv zeta.
  pose proof (update_after_begin_is_idle 6 8 ltac:(lia)
                (FlashSettings_new 6 [Byte.x00; Byte.x00])
                (mkEEPROM
                   [Byte.x06; Byte.x00; Byte.x0d; Byte.x2b; Byte.x00;
                    Byte.x07; Byte.xff; Byte.xff] [])) as H.
  assert (Hloaded :
    fst (fst (begin 6 8 (FlashSettings_new 6 [Byte.x00; Byte.x00])
                (mkEEPROM
                   [Byte.x06; Byte.x00; Byte.x0d; Byte.x2b; Byte.x00;
                    Byte.x07; Byte.xff; Byte.xff] []))) = true)
    by reflexivity.
  destruct (begin 6 8 (FlashSettings_new 6 [Byte.x00; Byte.x00])
              (mkEEPROM
                 [Byte.x06; Byte.x00; Byte.x0d; Byte.x2b; Byte.x00;
                  Byte.x07; Byte.xff; Byte.xff] []))
    as [[loaded this'] E'].
  simpl in Hloaded. split; [exact Hloaded | exact (H Hloaded)].
Defined.

(** The calls of a load and of a save in a partition of eight bytes. *)
Lemma driver_calls_within_partition_witness :
  let this := FlashSettings_new 6 [Byte.x00; Byte.x07] in
  let E := mkEEPROM (replicate 8 Byte.xff) [] in
  (6 <= 8)%nat
  /\ (let '(_, _, E') := begin 6 8 this E in
      exists new,
        calls E' = calls E ++ new /\ forallb (call_within 8) new = true)
  /\ (let '(_, _, E1) := update 6 this E in
      exists new,
        calls E1 = calls E ++ new /\ forallb (call_within 8) new = true).
Proof.
  cbv zeta. split; [lia |].
  apply (driver_calls_within_partition 6 8 ltac:(lia)
           (FlashSettings_new 6 [Byte.x00; Byte.x07])
           (mkEEPROM (replicate 8 Byte.xff) [])).
Defined.

(** The first payload byte of the valid record goes from [00] to [01]:
    caught. *)
Lemma payload_corruption_detected_iff_witness :
  let this := FlashSettings_new 6 [Byte.x00; Byte.x00] in
  let E :=
    mkEEPROM
      [Byte.x06; Byte.x00; Byte.x0d; Byte.x2b; Byte.x00; Byte.x07;
       Byte.xff; Byte.xff] [] in
  holds_valid_record 6 E
  /\ cells E !! 4%nat = Some Byte.x00
  /\ let '(loaded, this', _) := begin 6 8 this (corrupt_byte 4 Byte.x01 E) in
     (loaded = false
      <-> byte.unsigned Byte.x00 mod 255 <> byte.unsigned Byte.x01 mod 255)
     /\ (loaded = false -> this' = this)
     /\ (loaded = true -> payload this' !! (4 - 4)%nat = Some Byte.x01).
Proof.
  assert (Hvalid :
    holds_valid_record 6
      (mkEEPROM
         [Byte.x06; Byte.x00; Byte.x0d; Byte.x2b; Byte.x00; Byte.x07;
          Byte.xff; Byte.xff] []))
    by (split; [simpl; lia | split; reflexivity]).
  cbv zeta. split; [exact Hvalid |]. split; [reflexivity |].
  apply (payload_corruption_detected_iff 6 8 ltac:(lia)
           (FlashSettings_new 6 [Byte.x00; Byte.x00]) _ 4
           Byte.x00 Byte.x01 Hvalid ltac:(lia)).
  reflexivity.
Defined.

(** The low byte of the size field of the valid record goes from [06] to
    [07]. *)
Lemma header_corruption_detected_witness :
  let this := FlashSettings_new 6 [Byte.x00; Byte.x00] in
  let E :=
    mkEEPROM
      [Byte.x06; Byte.x00; Byte.x0d; Byte.x2b; Byte.x00; Byte.x07;
       Byte.xff; Byte.xff] [] in
  holds_valid_record 6 E
  /\ cells E !! 0%nat = Some Byte.x06
  /\ Byte.x07 <> Byte.x06
  /\ let '(loaded, this', _) := begin 6 8 this (corrupt_byte 0 Byte.x07 E) in
     loaded = false /\ this' = this.
Proof.
  assert (Hvalid :
    holds_valid_record 6
      (mkEEPROM
         [Byte.x06; Byte.x00; Byte.x0d; Byte.x2b; Byte.x00; Byte.x07;
          Byte.xff; Byte.xff] []))
    by (split; [simpl; lia | split; reflexivity]).
  assert (Hne : Byte.x07 <> Byte.x06) by discriminate.
  cbv zeta. split; [exact Hvalid |]. split; [reflexivity |].
  split; [exact Hne |].
  apply (header_corruption_detected 6 8 ltac:(lia)
           (FlashSettings_new 6 [Byte.x00; Byte.x00]) _ 0
           Byte.x06 Byte.x07 Hvalid ltac:(lia)); [reflexivity | exact Hne].
Defined.

(** Bit 3 of the last payload byte of the valid record is inverted. *)
Lemma bit_flip_detected_witness :
  let this := FlashSettings_new 6 [Byte.x00; Byte.x00] in
  let E :=
    mkEEPROM
      [Byte.x06; Byte.x00; Byte.x0d; Byte.x2b; Byte.x00; Byte.x07;
       Byte.xff; Byte.xff] [] in
  holds_valid_record 6 E
  /\ cells E !! 5%nat = Some Byte.x07
  /\ flip_bit 3 Byte.x07 = Byte.x0f
  /\ let '(loaded, this', _) :=
       begin 6 8 this (corrupt_byte 5 (flip_bit 3 Byte.x07) E) in
     loaded = false /\ this' = this.
Proof.
  assert (Hvalid :
    holds_valid_record 6
      (mkEEPROM
         [Byte.x06; Byte.x00; Byte.x0d; Byte.x2b; Byte.x00; Byte.x07;
          Byte.xff; Byte.xff] []))
    by (split; [simpl; lia | split; reflexivity]).
  cbv zeta. split; [exact Hvalid |]. split; [reflexivity |].
  split; [reflexivity |].
  apply (bit_flip_detected 6 8 ltac:(lia)
           (FlashSettings_new 6 [Byte.x00; Byte.x00]) _ 5 3
           Byte.x07 Hvalid ltac:(lia)); [reflexivity | lia].
Defined.

(** The valid record of the six-byte type, read by a type of eight
    bytes. *)
Lemma schema_drift_detected_witness :
  let this := FlashSettings_new 8 [Byte.x00; Byte.x00; Byte.x00; Byte.x00] in
  let E :=
    mkEEPROM
      [Byte.x06; Byte.x00; Byte.x0d; Byte.x2b; Byte.x00; Byte.x07;
       Byte.xff; Byte.xff] [] in
  holds_valid_record 6 E
  /\ let '(loaded, this', _) := begin 8 8 this E in
     loaded = false /\ this' = this.
Proof.
  assert (Hvalid :
    holds_valid_record 6
      (mkEEPROM
         [Byte.x06; Byte.x00; Byte.x0d; Byte.x2b; Byte.x00; Byte.x07;
          Byte.xff; Byte.xff] []))
    by (split; [simpl; lia | split; reflexivity]).
  cbv zeta. split; [exact Hvalid |].
  apply (schema_drift_detected 6 8 8
           (FlashSettings_new 8 [Byte.x00; Byte.x00; Byte.x00; Byte.x00]) _
           ltac:(lia) ltac:(lia) ltac:(lia) Hvalid).
Defined.

(** The first save of a fresh six-byte object over erased storage. *)
Lemma update_stores_valid_record_witness :
  let this := FlashSettings_new 6 [Byte.x00; Byte.x07] in
  let E := mkEEPROM (replicate 8 Byte.xff) [] in
  well_sized 6 this
  /\ m_checksum this <> computed_checksum 6 this
  /\ let '(_, this1, E1) := update 6 this E in
     holds_valid_record 6 E1 /\ stored_bytes 6 E1 = object_bytes this1.
Proof.
  assert (Hsized : well_sized 6 (FlashSettings_new 6 [Byte.x00; Byte.x07]))
    by reflexivity.
  assert (Hdiff : m_checksum (FlashSettings_new 6 [Byte.x00; Byte.x07])
                  <> computed_checksum 6
                       (FlashSettings_new 6 [Byte.x00; Byte.x07]))
    by (vm_compute; discriminate).
  cbv zeta. split; [exact Hsized |]. split; [exact Hdiff |].
  apply (update_stores_valid_record 6
           (FlashSettings_new 6 [Byte.x00; Byte.x07])
           (mkEEPROM (replicate 8 Byte.xff) []) Hsized);
    [reflexivity | reflexivity | simpl; lia | exact Hdiff].
Defined.

(** A load of the valid record: accepted, and the object is the record. *)
Lemma begin_loads_iff_valid_witness :
  let this := FlashSettings_new 6 [Byte.x00; Byte.x00] in
  let E :=
    mkEEPROM
      [Byte.x06; Byte.x00; Byte.x0d; Byte.x2b; Byte.x00; Byte.x07;
       Byte.xff; Byte.xff] [] in
  (4 <= 6)%nat
  /\ let '(loaded, this', _) := begin 6 8 this E in
     (loaded = true
      <-> stored_size 6 E = 6
          /\ recomputed_checksum 6 E = stored_checksum 6 E)
     /\ (loaded = true -> object_bytes this' = stored_bytes 6 E).
Proof.
  cbv zeta. split; [lia |].
  apply (begin_loads_iff_valid 6 8 ltac:(lia)
           (FlashSettings_new 6 [Byte.x00; Byte.x00])
           (mkEEPROM
              [Byte.x06; Byte.x00; Byte.x0d; Byte.x2b; Byte.x00; Byte.x07;
               Byte.xff; Byte.xff] [])).
Defined.
